(** * bevy_sparse_tilemap: chunk coordinates, chunks, tilemap and the mesh pass

    A shallow embedding of [src/tilemap/chunk.rs], [src/tilemap.rs] and the
    [generate_meshes_system] of [src/lib.rs].

    Conventions of the embedding:
    - a Rust [u8] is a [Z] in [0, 256); [wrapping_*] and [overflowing_*] write
      the reduction modulo 256 out;
    - a Rust [usize] index is a [Z] (the values stay far below any bound);
    - an [i32] coordinate of an [IVec2] is a [Z]; the spec (section 7) places
      signed overflow of chunk coordinates outside normal operation, so chunk
      arithmetic is the unbounded integer arithmetic;
    - a panic ([assert!], [unwrap] on [None], an out-of-bounds index) is
      [None] of an [option] result;
    - a [&mut self] method returns the updated value explicitly. *)

From Stdlib Require Import ZArith Lia.
From stdpp Require Import base list gmap.

Open Scope Z_scope.

(** [lib.rs]: [pub const CHUNK_SIZE: usize = 32;] *)
Definition CHUNK_SIZE : Z := 32.

(** [CHUNK_SIZE as u8 - 1], the mask used for wrap-around inside a chunk. *)
Definition MASK : Z := CHUNK_SIZE - 1.

(** Rust [u8] arithmetic. *)
Definition u8_wrap (z : Z) : Z := z mod 256.
Definition u8_wrapping_add (a b : Z) : Z := u8_wrap (a + b).
Definition u8_wrapping_sub (a b : Z) : Z := u8_wrap (a - b).
(** [u8::overflowing_sub]: the wrapped difference and whether it borrowed. *)
Definition u8_overflowing_sub (a b : Z) : Z * bool := (u8_wrap (a - b), a <? b).
Definition is_u8 (z : Z) : Prop := 0 <= z < 256.

(** Rust's [+] and [-] on [u8] (debug build): the overflow is a panic. *)
Definition u8_checked_add (a b : Z) : option Z :=
  if a + b <? 256 then Some (a + b) else None.
Definition u8_checked_sub (a b : Z) : option Z :=
  if b <=? a then Some (a - b) else None.

(** glam's [IVec2] (two [i32]); also the key type of the tilemap. *)
Abbreviation IVec2 := (Z * Z)%type.
Definition ivec2_add (a b : IVec2) : IVec2 := (a.1 + b.1, a.2 + b.2).
Definition ivec2_sub (a b : IVec2) : IVec2 := (a.1 - b.1, a.2 - b.2).

(** glam's [BVec2]. *)
Record BVec2 := BVec2_new { bx : bool; by_ : bool }.

(** ** [chunk.rs]: [ChunkPos] *)
Module ChunkPos.

(** [pub struct ChunkPos(u8, u8);] *)
Record t := ChunkPos { f0 : Z; f1 : Z }.

(** The documented invariant: both coordinates lie in [0, CHUNK_SIZE). *)
Definition valid (p : t) : Prop :=
  0 <= f0 p < CHUNK_SIZE /\ 0 <= f1 p < CHUNK_SIZE.

Definition ZERO : t := ChunkPos 0 0.

Definition try_new (x y : Z) : option t :=
  if (x <? CHUNK_SIZE) && (y <? CHUNK_SIZE) then Some (ChunkPos x y) else None.

(** [Self::try_new(x, y).unwrap()]: [None] is the panic. *)
Definition new (x y : Z) : option t := try_new x y.

Definition x (p : t) : Z := f0 p.
Definition y (p : t) : Z := f1 p.
Definition tup (p : t) : Z * Z := (x p, y p).

(** [assert!(x <= CHUNK_SIZE as u8); self.0 = x] *)
Definition set_x (p : t) (v : Z) : option t :=
  if v <=? CHUNK_SIZE then Some (ChunkPos v (f1 p)) else None.

(** [assert!(y <= CHUNK_SIZE as u8); self.0 = y] (the source writes field 0) *)
Definition set_y (p : t) (v : Z) : option t :=
  if v <=? CHUNK_SIZE then Some (ChunkPos v (f1 p)) else None.

(** [x as usize + y as usize * CHUNK_SIZE] *)
Definition as_index (p : t) : Z := f0 p + f1 p * CHUNK_SIZE.

Definition as_ivec2 (p : t) : IVec2 := (f0 p, f1 p).

Definition wrapping_add (a b : t) : t :=
  ChunkPos (Z.land (u8_wrapping_add (x a) (x b)) MASK)
           (Z.land (u8_wrapping_add (y a) (y b)) MASK).

Definition wrapping_sub (a b : t) : t :=
  ChunkPos (Z.land (u8_wrapping_sub (x a) (x b)) MASK)
           (Z.land (u8_wrapping_sub (y a) (y b)) MASK).

(** The local [fn overflowing_add_u8]:
    [let r = lhs.wrapping_add(rhs); (r & (CHUNK_SIZE as u8 - 1), r > CHUNK_SIZE as u8)] *)
Definition overflowing_add_u8 (lhs rhs : Z) : Z * bool :=
  let r := u8_wrapping_add lhs rhs in (Z.land r MASK, CHUNK_SIZE <? r).

Definition overflowing_add (a b : t) : t * BVec2 :=
  let '(x', cx) := overflowing_add_u8 (x a) (x b) in
  let '(y', cy) := overflowing_add_u8 (y a) (y b) in
  (ChunkPos x' y', BVec2_new cx cy).

(** The local [fn overflowing_sub_u8]:
    [let (sum, carry) = lhs.overflowing_sub(rhs); (sum & (CHUNK_SIZE as u8 - 1), carry)] *)
Definition overflowing_sub_u8 (lhs rhs : Z) : Z * bool :=
  let '(sum, carry) := u8_overflowing_sub lhs rhs in (Z.land sum MASK, carry).

Definition overflowing_sub (a b : t) : t * BVec2 :=
  let '(x', cx) := overflowing_sub_u8 (x a) (x b) in
  let '(y', cy) := overflowing_sub_u8 (y a) (y b) in
  (ChunkPos x' y', BVec2_new cx cy).

(** The successor closure of [iter_positions]:
    [x += 1; if x == CHUNK_SIZE as u8 { x = 0; y += 1; } ChunkPos::try_new(x, y)] *)
Definition next_position (p : t) : option t :=
  let '(x0, y0) := tup p in
  let x1 := x0 + 1 in
  let '(x2, y2) := if x1 =? CHUNK_SIZE then (0, y0 + 1) else (x1, y0) in
  try_new x2 y2.

(** [iter::successors]; the fuel bounds the (finite) sequence. *)
Fixpoint successors (fuel : nat) (p : t) : list t :=
  match fuel with
  | O => []
  | S f => p :: match next_position p with
                | Some q => successors f q
                | None => []
                end
  end.

(** [ChunkPos::iter_positions()]: the fuel [CHUNK_SIZE * CHUNK_SIZE + 1] is one
    more than the number of positions, so the sequence ends by [try_new]
    returning [None] (see [iter_positions_row_major]). *)
Definition iter_positions : list t := successors 1025 ZERO.

(** [impl TryFrom<IVec2> for ChunkPos]: [None] is the [Err(())]. *)
Definition try_from (value : IVec2) : option t :=
  if (0 <=? value.1) && (value.1 <? CHUNK_SIZE) && (0 <=? value.2) && (value.2 <? CHUNK_SIZE)
  then Some (ChunkPos (u8_wrap value.1) (u8_wrap value.2))
  else None.

(** [impl Add for ChunkPos]: [ChunkPos::new(self.0 + rhs.0, self.1 + rhs.1)] *)
Definition add (self rhs : t) : option t :=
  match u8_checked_add (f0 self) (f0 rhs), u8_checked_add (f1 self) (f1 rhs) with
  | Some x', Some y' => new x' y'
  | _, _ => None
  end.

(** [impl AddAssign for ChunkPos]:
    [self.0 += rhs.0; self.1 += rhs.1; assert!(self.0 < CHUNK_SIZE as u8 && self.1 < CHUNK_SIZE as u8)] *)
Definition add_assign (self rhs : t) : option t :=
  match u8_checked_add (f0 self) (f0 rhs), u8_checked_add (f1 self) (f1 rhs) with
  | Some x', Some y' =>
      if (x' <? CHUNK_SIZE) && (y' <? CHUNK_SIZE) then Some (ChunkPos x' y') else None
  | _, _ => None
  end.

(** [impl Sub for ChunkPos]: [ChunkPos::new(self.0 - rhs.0, self.1 - rhs.1)] *)
Definition sub (self rhs : t) : option t :=
  match u8_checked_sub (f0 self) (f0 rhs), u8_checked_sub (f1 self) (f1 rhs) with
  | Some x', Some y' => new x' y'
  | _, _ => None
  end.

(** [impl SubAssign for ChunkPos]:
    [self.0 -= rhs.0; self.1 -= rhs.1; assert!(self.0 < CHUNK_SIZE as u8 && self.1 < CHUNK_SIZE as u8)] *)
Definition sub_assign (self rhs : t) : option t :=
  match u8_checked_sub (f0 self) (f0 rhs), u8_checked_sub (f1 self) (f1 rhs) with
  | Some x', Some y' =>
      if (x' <? CHUNK_SIZE) && (y' <? CHUNK_SIZE) then Some (ChunkPos x' y') else None
  | _, _ => None
  end.

End ChunkPos.

Abbreviation ChunkPos := ChunkPos.t.

(** ** [tilemap.rs]: [TilemapPos] *)
Module TilemapPos.

(** [pub struct TilemapPos { pub chunk: IVec2, pub tile: ChunkPos }] *)
Record t := TilemapPos { chunk : IVec2; tile : ChunkPos }.

Definition ZERO : t := TilemapPos (0, 0) ChunkPos.ZERO.

(** [impl From<IVec2> for TilemapPos]: [v / IVec2::splat(CHUNK_SIZE as i32)] is
    glam's component-wise [i32] division (Rust's [/], rounding toward zero,
    [Z.quot]); [v.x as u8] keeps the low 8 bits ([u8_wrap]). The [ChunkPos::new]
    panic is the [None]. *)
Definition from_ivec2 (v : IVec2) : option t :=
  match ChunkPos.new (Z.land (u8_wrap v.1) MASK) (Z.land (u8_wrap v.2) MASK) with
  | Some tl => Some (TilemapPos (Z.quot v.1 CHUNK_SIZE, Z.quot v.2 CHUNK_SIZE) tl)
  | None => None
  end.

(** [impl From<TilemapPos> for IVec2]: [v.chunk * (CHUNK_SIZE as i32) + v.tile.to_ivec2()]
    (the tile's [IVec2] conversion is [ChunkPos::as_ivec2]). *)
Definition to_ivec2 (v : t) : IVec2 :=
  ivec2_add ((chunk v).1 * CHUNK_SIZE, (chunk v).2 * CHUNK_SIZE)
            (ChunkPos.as_ivec2 (tile v)).

(** [if carry.x { chunk.x += 1 } if carry.y { chunk.y += 1 }] *)
Definition apply_carry (chunk : IVec2) (carry : BVec2) : IVec2 :=
  let chunk := if bx carry then (chunk.1 + 1, chunk.2) else chunk in
  if by_ carry then (chunk.1, chunk.2 + 1) else chunk.

(** [if carry.x { chunk.x -= 1 } if carry.y { chunk.y -= 1 }] *)
Definition apply_borrow (chunk : IVec2) (carry : BVec2) : IVec2 :=
  let chunk := if bx carry then (chunk.1 - 1, chunk.2) else chunk in
  if by_ carry then (chunk.1, chunk.2 - 1) else chunk.

(** [impl Add for TilemapPos] *)
Definition add (self rhs : t) : t :=
  let chunk := ivec2_add (chunk self) (chunk rhs) in
  let '(tile, carry) := ChunkPos.overflowing_add (tile self) (tile rhs) in
  TilemapPos (apply_carry chunk carry) tile.

(** [impl Sub for TilemapPos] *)
Definition sub (self rhs : t) : t :=
  let chunk := ivec2_sub (chunk self) (chunk rhs) in
  let '(tile, carry) := ChunkPos.overflowing_sub (tile self) (tile rhs) in
  TilemapPos (apply_borrow chunk carry) tile.

(** [impl Add<ChunkPos> for TilemapPos] *)
Definition add_chunk_pos (self : t) (rhs : ChunkPos) : t :=
  let '(tile, carry) := ChunkPos.overflowing_add (tile self) rhs in
  TilemapPos (apply_carry (chunk self) carry) tile.

(** [impl Sub<ChunkPos> for TilemapPos] *)
Definition sub_chunk_pos (self : t) (rhs : ChunkPos) : t :=
  let '(tile, carry) := ChunkPos.overflowing_sub (tile self) rhs in
  TilemapPos (apply_borrow (chunk self) carry) tile.

(** [impl Add<IVec2> for TilemapPos]: [self] + [rhs] chunks *)
Definition add_ivec2 (self : t) (rhs : IVec2) : t :=
  TilemapPos (ivec2_add (chunk self) rhs) (tile self).

(** [impl Sub<IVec2> for TilemapPos]: [self] - [rhs] chunks *)
Definition sub_ivec2 (self : t) (rhs : IVec2) : t :=
  TilemapPos (ivec2_sub (chunk self) rhs) (tile self).

(** [impl AddAssign<IVec2>] and [impl SubAssign<IVec2>]: [self.chunk += rhs],
    [self.chunk -= rhs]. *)
Definition add_assign_ivec2 (self : t) (rhs : IVec2) : t :=
  TilemapPos (ivec2_add (chunk self) rhs) (tile self).
Definition sub_assign_ivec2 (self : t) (rhs : IVec2) : t :=
  TilemapPos (ivec2_sub (chunk self) rhs) (tile self).


(** [impl AddAssign for TilemapPos]: [let (tile, carry) = self.tile.overflowing_add(rhs.tile);
    self.tile = tile; self.chunk += rhs.chunk;] then the carry. *)
Definition add_assign (self rhs : t) : t :=
  let '(tile', carry) := ChunkPos.overflowing_add (tile self) (tile rhs) in
  let self := TilemapPos (chunk self) tile' in
  let self := TilemapPos (ivec2_add (chunk self) (chunk rhs)) (tile self) in
  let self := if bx carry then TilemapPos ((chunk self).1 + 1, (chunk self).2) (tile self) else self in
  if by_ carry then TilemapPos ((chunk self).1, (chunk self).2 + 1) (tile self) else self.

(** [impl SubAssign for TilemapPos] *)
Definition sub_assign (self rhs : t) : t :=
  let '(tile', carry) := ChunkPos.overflowing_sub (tile self) (tile rhs) in
  let self := TilemapPos (chunk self) tile' in
  let self := TilemapPos (ivec2_sub (chunk self) (chunk rhs)) (tile self) in
  let self := if bx carry then TilemapPos ((chunk self).1 - 1, (chunk self).2) (tile self) else self in
  if by_ carry then TilemapPos ((chunk self).1, (chunk self).2 - 1) (tile self) else self.

(** [impl AddAssign<ChunkPos> for TilemapPos] *)
Definition add_assign_chunk_pos (self : t) (rhs : ChunkPos) : t :=
  let '(tile', carry) := ChunkPos.overflowing_add (tile self) rhs in
  let self := TilemapPos (chunk self) tile' in
  let self := if bx carry then TilemapPos ((chunk self).1 + 1, (chunk self).2) (tile self) else self in
  if by_ carry then TilemapPos ((chunk self).1, (chunk self).2 + 1) (tile self) else self.

(** [impl SubAssign<ChunkPos> for TilemapPos] *)
Definition sub_assign_chunk_pos (self : t) (rhs : ChunkPos) : t :=
  let '(tile', carry) := ChunkPos.overflowing_sub (tile self) rhs in
  let self := TilemapPos (chunk self) tile' in
  let self := if bx carry then TilemapPos ((chunk self).1 - 1, (chunk self).2) (tile self) else self in
  if by_ carry then TilemapPos ((chunk self).1, (chunk self).2 - 1) (tile self) else self.

End TilemapPos.

Abbreviation TilemapPos := TilemapPos.t.

(** ** [chunk.rs]: [Chunk] *)
Module Chunk.

(** [pub struct Chunk<T: Tile>]. [Carry] is the mesh builder's [CarryData],
    [Entity] the Bevy entity id. The array [[Option<T>; CHUNK_SIZE * CHUNK_SIZE]]
    is a list, row-major. *)
Record t (T Carry Entity : Type) := Chunk {
  tiles : list (option T);
  regenerate_mesh : bool;
  mesh_carry_data : Carry;
  mesh_entity : option Entity
}.
Arguments Chunk {T Carry Entity}.
Arguments tiles {T Carry Entity}.
Arguments regenerate_mesh {T Carry Entity}.
Arguments mesh_carry_data {T Carry Entity}.
Arguments mesh_entity {T Carry Entity}.

Section Ops.
Context {T Carry Entity : Type}.
(** [<CarryData>::default()] *)
Context (carry_default : Carry).

Local Abbreviation chunk := (t T Carry Entity).

(** The array type [[Option<T>; CHUNK_SIZE * CHUNK_SIZE]] fixes the length. *)
Definition wf (c : chunk) : Prop :=
  length (tiles c) = Z.to_nat (CHUNK_SIZE * CHUNK_SIZE).

(** [impl Default for Chunk<T>] *)
Definition default : chunk :=
  Chunk (replicate (Z.to_nat (CHUNK_SIZE * CHUNK_SIZE)) None) false carry_default None.

Definition with_tiles (c : chunk) (ts : list (option T)) : chunk :=
  Chunk ts (regenerate_mesh c) (mesh_carry_data c) (mesh_entity c).
Definition with_carry (c : chunk) (cd : Carry) : chunk :=
  Chunk (tiles c) (regenerate_mesh c) cd (mesh_entity c).
Definition with_entity (c : chunk) (e : option Entity) : chunk :=
  Chunk (tiles c) (regenerate_mesh c) (mesh_carry_data c) e.

(** [Chunk::regenerate_mesh]: [self.regenerate_mesh = true] *)
Definition set_regenerate_mesh (c : chunk) : chunk :=
  Chunk (tiles c) true (mesh_carry_data c) (mesh_entity c).

(** [impl Index<ChunkPos>]: [&self.tiles[index.as_index()]]; the outer [None]
    is the out-of-bounds panic. *)
Definition index (c : chunk) (pos : ChunkPos) : option (option T) :=
  tiles c !! Z.to_nat (ChunkPos.as_index pos).

(** [Chunk::is_set] *)
Definition is_set (c : chunk) (pos : ChunkPos) : option bool :=
  (fun s => bool_decide (is_Some s)) <$> index c pos.

(** [mem::replace(&mut self[pos], v)] through [IndexMut]: the new chunk and the
    previous slot, [None] on the out-of-bounds panic. *)
Definition replace_slot (c : chunk) (pos : ChunkPos) (v : option T)
    : option (chunk * option T) :=
  let i := Z.to_nat (ChunkPos.as_index pos) in
  match tiles c !! i with
  | Some old => Some (with_tiles c (<[i := v]> (tiles c)), old)
  | None => None
  end.

(** [Chunk::set]: [self.regenerate_mesh(); mem::replace(&mut self[pos], Some(tile.into()))] *)
Definition set (c : chunk) (pos : ChunkPos) (tile : T) : option (chunk * option T) :=
  replace_slot (set_regenerate_mesh c) pos (Some tile).

(** [Chunk::remove]: [self.regenerate_mesh(); mem::take(&mut self[pos])] *)
Definition remove (c : chunk) (pos : ChunkPos) : option (chunk * option T) :=
  replace_slot (set_regenerate_mesh c) pos None.

(** [Chunk::iter_positions]: [ChunkPos::iter_positions().zip(self.iter())] *)
Definition iter_positions (c : chunk) : list (ChunkPos * option T) :=
  zip ChunkPos.iter_positions (tiles c).

(** [Chunk::iter_tile_positions] (and its [_mut] twin, which visits the same
    slots): the occupied slots with their positions. *)
Definition iter_tile_positions (c : chunk) : list (ChunkPos * T) :=
  omap (fun '(pos, slot) => (fun tile => (pos, tile)) <$> slot) (iter_positions c).


End Ops.

End Chunk.

Abbreviation Chunk := Chunk.t.

(** ** [tilemap.rs]: [Tilemap] *)
Module Tilemap.

Section Ops.
Context {T Carry Entity : Type}.
Context (carry_default : Carry).

Local Abbreviation chunk := (Chunk T Carry Entity).
(** [pub struct Tilemap<T: Tile> { data: HashMap<IVec2, Chunk<T>> }] *)
Local Abbreviation tilemap := (gmap IVec2 chunk).

(** [Tilemap::get_chunk] (and [get_chunk_mut], the same lookup) *)
Definition get_chunk (m : tilemap) (pos : IVec2) : option chunk := m !! pos.

(** [Tilemap::get_or_create_chunk]: [self.data.entry(pos).or_default()]; the map
    after the entry call and the chunk the returned reference points to. *)
Definition get_or_create_chunk (m : tilemap) (pos : IVec2) : tilemap * chunk :=
  match m !! pos with
  | Some c => (m, c)
  | None => (<[pos := Chunk.default carry_default]> m, Chunk.default carry_default)
  end.

(** [Tilemap::get]: [self.get_chunk(pos.chunk).and_then(|chunk| chunk[pos.tile].as_ref())];
    the outer [None] is the index panic. *)
Definition get (m : tilemap) (pos : TilemapPos) : option (option T) :=
  match get_chunk m (TilemapPos.chunk pos) with
  | None => Some None
  | Some c => Chunk.index c (TilemapPos.tile pos)
  end.

(** [Tilemap::set]: [self.get_or_create_chunk(pos.chunk).set(pos.tile, tile.into())];
    the chunk reached through the [&mut] is written back at its key. *)
Definition set (m : tilemap) (pos : TilemapPos) (tile : T) : option (tilemap * option T) :=
  let '(m1, c) := get_or_create_chunk m (TilemapPos.chunk pos) in
  match Chunk.set c (TilemapPos.tile pos) tile with
  | Some (c', old) => Some (<[TilemapPos.chunk pos := c']> m1, old)
  | None => None
  end.

(** [Tilemap::remove]: [self.get_chunk_mut(pos.chunk).and_then(|chunk| chunk.remove(pos.tile))] *)
Definition remove (m : tilemap) (pos : TilemapPos) : option (tilemap * option T) :=
  match get_chunk m (TilemapPos.chunk pos) with
  | None => Some (m, None)
  | Some c =>
      match Chunk.remove c (TilemapPos.tile pos) with
      | Some (c', old) => Some (<[TilemapPos.chunk pos := c']> m, old)
      | None => None
      end
  end.

(** The tile-level operations of the public interface, as a trace. *)
Inductive op :=
| OpGet (pos : TilemapPos)
| OpGetChunk (pos : IVec2)
| OpSet (pos : TilemapPos) (tile : T)
| OpRemove (pos : TilemapPos).

Definition step (m : tilemap) (o : op) : option tilemap :=
  match o with
  | OpGet pos => (fun _ => m) <$> get m pos
  | OpGetChunk _ => Some m
  | OpSet pos tile => fst <$> set m pos tile
  | OpRemove pos => fst <$> remove m pos
  end.

(** Runs a trace; [None] once an operation panics. *)
Fixpoint run (m : tilemap) (ops : list op) : option tilemap :=
  match ops with
  | [] => Some m
  | o :: rest => step m o ≫= fun m' => run m' rest
  end.

(** The chunk coordinates touched by a tile write of the trace. *)
Definition written_chunks (ops : list op) : list IVec2 :=
  omap (fun o => match o with OpSet pos _ => Some (TilemapPos.chunk pos) | _ => None end) ops.

(** [Tilemap::iter_positions]: every chunk with its key, then its occupied slots
    ([iter_tile_positions]) with the position rebuilt as [TilemapPos { chunk, tile }].
    The [HashMap] iteration order is unspecified; [map_to_list] is one order, and
    only membership is stated about it. *)
Definition iter_positions (m : tilemap) : list (TilemapPos * T) :=
  '(chunk_pos, c) ← map_to_list m;
  (fun '(tile_pos, tile) => (TilemapPos.TilemapPos chunk_pos tile_pos, tile))
    <$> Chunk.iter_tile_positions c.


End Ops.

End Tilemap.

(** ** [lib.rs]: [generate_meshes_system] *)
Module Lib.

(** The mesh-builder collaborator ([rendering.rs], [MeshBuilder]) and the tile's
    [add_to_mesh] are abstract: [init], [set_offset], [add_to_mesh], [finish].
    [&mut builder] is passed along as a value. [set_offset] receives the
    offset [tile_pos.as_ivec2().as_vec2()], exact in [f32] for coordinates
    below 32, as the integer pair. The host side ([mesh_query.get_mut],
    [meshes.add], [commands.spawn_bundle]) is abstracted by [mesh_alive] and
    [spawn], which yields the new entity for a chunk position and mesh. *)
Section Pass.
Context {T Carry Entity Builder Mesh : Type}.
Context (carry_default : Carry).
Context (init : Carry -> Builder).
Context (set_offset : Builder -> IVec2 -> Builder).
Context (add_to_mesh : T -> Builder -> Builder).
Context (finish : Builder -> Mesh * Carry).
Context (mesh_alive : Entity -> bool).
Context (spawn : IVec2 -> Mesh -> Entity).

Local Abbreviation chunk := (Chunk T Carry Entity).

(** [for (tile_pos, tile) in chunk.iter_tile_positions_mut() {
       mesh_builder.set_offset(..); tile.add_to_mesh(&mut mesh_builder); }] *)
Definition feed_tiles (b : Builder) (ts : list (ChunkPos * T)) : Builder :=
  fold_left (fun b '(tile_pos, tile) =>
               add_to_mesh tile (set_offset b (ChunkPos.as_ivec2 tile_pos))) ts b.

(** The body of the loop of [generate_meshes_system] for one chunk. *)
Definition rebuild_chunk (chunk_pos : IVec2) (c : chunk) : chunk :=
  (* T::MeshBuilder::init(mem::take(&mut chunk.mesh_carry_data)) *)
  let taken := Chunk.mesh_carry_data c in
  let c := Chunk.with_carry c carry_default in
  let mesh_builder := feed_tiles (init taken) (Chunk.iter_tile_positions c) in
  let '(new_mesh, carry_data) := finish mesh_builder in
  (* chunk.mesh_carry_data = carry_data; *)
  let c := Chunk.with_carry c carry_data in
  match Chunk.mesh_entity c with
  | Some e => if mesh_alive e then c
              else Chunk.with_entity c (Some (spawn chunk_pos new_mesh))
  | None => Chunk.with_entity c (Some (spawn chunk_pos new_mesh))
  end.

(** [generate_meshes_system]: every chunk passing
    [.filter(|(_, chunk)| chunk.regenerate_mesh)] goes through the loop body;
    the others are not visited. *)
Definition generate_meshes (m : gmap IVec2 chunk) : gmap IVec2 chunk :=
  map_imap (fun pos c => Some (if Chunk.regenerate_mesh c then rebuild_chunk pos c else c)) m.

End Pass.

End Lib.

(** * Facts *)

(** ** Arithmetic helpers *)

Lemma mask_mod (z : Z) : Z.land z MASK = z mod CHUNK_SIZE.
Proof.
  unfold MASK, CHUNK_SIZE. change (32 - 1) with (Z.ones 5).
  rewrite Z.land_ones by lia. reflexivity.
Qed.

Lemma mask_u8_wrap (z : Z) : Z.land (u8_wrap z) MASK = z mod CHUNK_SIZE.
Proof.
  rewrite mask_mod. unfold u8_wrap, CHUNK_SIZE.
  apply Z.mod_mod_divide. exists 8. reflexivity.
Qed.

Lemma u8_wrap_small (z : Z) : 0 <= z < 256 -> u8_wrap z = z.
Proof. intros H. unfold u8_wrap. apply Z.mod_small. exact H. Qed.

(** ** [ChunkPos] *)

(** Component-wise characterisation of [overflowing_add] on in-range positions:
    the masked sum, and a flag that is set when the raw sum exceeds [CHUNK_SIZE]. *)
Lemma overflowing_add_valid (a b : ChunkPos) :
  ChunkPos.valid a -> ChunkPos.valid b ->
  ChunkPos.overflowing_add a b =
    (ChunkPos.ChunkPos ((ChunkPos.x a + ChunkPos.x b) mod CHUNK_SIZE)
                       ((ChunkPos.y a + ChunkPos.y b) mod CHUNK_SIZE),
     BVec2_new (CHUNK_SIZE <? ChunkPos.x a + ChunkPos.x b)
               (CHUNK_SIZE <? ChunkPos.y a + ChunkPos.y b)).
Proof.
  intros [Hax Hay] [Hbx Hby].
  unfold ChunkPos.overflowing_add, ChunkPos.overflowing_add_u8, u8_wrapping_add.
  rewrite !mask_u8_wrap.
  unfold ChunkPos.x, ChunkPos.y in *.
  rewrite !(u8_wrap_small (_ + _)) by (unfold CHUNK_SIZE in *; lia).
  reflexivity.
Qed.

(** Component-wise characterisation of [overflowing_sub] on in-range positions. *)
Lemma overflowing_sub_valid (a b : ChunkPos) :
  ChunkPos.valid a -> ChunkPos.valid b ->
  ChunkPos.overflowing_sub a b =
    (ChunkPos.ChunkPos ((ChunkPos.x a - ChunkPos.x b) mod CHUNK_SIZE)
                       ((ChunkPos.y a - ChunkPos.y b) mod CHUNK_SIZE),
     BVec2_new (ChunkPos.x a <? ChunkPos.x b) (ChunkPos.y a <? ChunkPos.y b)).
Proof.
  intros _ _.
  unfold ChunkPos.overflowing_sub, ChunkPos.overflowing_sub_u8, u8_overflowing_sub.
  rewrite !mask_u8_wrap. reflexivity.
Qed.

(** C1 (code_bug). [overflowing_add] should report, per axis, whether the raw
    sum left [0, CHUNK_SIZE), so that [TilemapPos] addition carries into the chunk
    coordinate. The flag is [r > CHUNK_SIZE as u8]: on in-range operands it agrees
    with the range test exactly when the raw sum is not [CHUNK_SIZE]. At
    [(31, 0) + (1, 0)] the raw sum 32 wraps to local 0 with the flag unset, so the
    chunk coordinate is not incremented. *)
Theorem overflowing_add_misses_carry_at_chunk_size (c : IVec2) :
  (forall a b : ChunkPos, ChunkPos.valid a -> ChunkPos.valid b ->
     ((bx (snd (ChunkPos.overflowing_add a b)) = true <->
       ~ (0 <= ChunkPos.x a + ChunkPos.x b < CHUNK_SIZE))
      <-> ChunkPos.x a + ChunkPos.x b <> CHUNK_SIZE)) /\
  ChunkPos.overflowing_add (ChunkPos.ChunkPos 31 0) (ChunkPos.ChunkPos 1 0)
    = (ChunkPos.ChunkPos 0 0, BVec2_new false false) /\
  TilemapPos.add (TilemapPos.TilemapPos c (ChunkPos.ChunkPos 31 0))
                 (TilemapPos.TilemapPos (0, 0) (ChunkPos.ChunkPos 1 0))
    = TilemapPos.TilemapPos c (ChunkPos.ChunkPos 0 0).
Proof.
  split; [|split].
  - intros a b Ha Hb. rewrite (overflowing_add_valid a b Ha Hb). simpl.
    destruct Ha as [Hax _], Hb as [Hbx _]. unfold ChunkPos.x.
    rewrite Z.ltb_lt. unfold CHUNK_SIZE in *. split.
    + intros Hiff Heq. rewrite Heq in Hiff. lia.
    + intros Hne. split; lia.
  - reflexivity.
  - destruct c as [cx cy]. cbv [TilemapPos.add ivec2_add]. simpl.
    rewrite !Z.add_0_r. reflexivity.
Qed.

(** C6. On in-range operands [overflowing_sub] returns, per axis, the difference
    reduced into [0, CHUNK_SIZE) and a borrow flag set exactly when the raw
    difference left [0, CHUNK_SIZE). Subtracting local [(1, 0)] from local [(0, 0)]
    gives local [(CHUNK_SIZE - 1, 0)], the chunk x one below the chunk difference
    and the chunk y unchanged, both for [TilemapPos - TilemapPos] and for
    [TilemapPos - ChunkPos]. *)
Theorem overflowing_sub_borrow_correct :
  (forall a b : ChunkPos, ChunkPos.valid a -> ChunkPos.valid b ->
     let '(r, carry) := ChunkPos.overflowing_sub a b in
     ChunkPos.valid r /\
     ChunkPos.x r = (ChunkPos.x a - ChunkPos.x b) mod CHUNK_SIZE /\
     ChunkPos.y r = (ChunkPos.y a - ChunkPos.y b) mod CHUNK_SIZE /\
     (bx carry = true <-> ~ (0 <= ChunkPos.x a - ChunkPos.x b < CHUNK_SIZE)) /\
     (by_ carry = true <-> ~ (0 <= ChunkPos.y a - ChunkPos.y b < CHUNK_SIZE))) /\
  (forall c1 c2 : IVec2,
     TilemapPos.sub (TilemapPos.TilemapPos c1 (ChunkPos.ChunkPos 0 0))
                    (TilemapPos.TilemapPos c2 (ChunkPos.ChunkPos 1 0))
     = TilemapPos.TilemapPos ((c1.1 - c2.1) - 1, c1.2 - c2.2)
                             (ChunkPos.ChunkPos (CHUNK_SIZE - 1) 0)) /\
  (forall c : IVec2,
     TilemapPos.sub_chunk_pos (TilemapPos.TilemapPos c (ChunkPos.ChunkPos 0 0))
                              (ChunkPos.ChunkPos 1 0)
     = TilemapPos.TilemapPos (c.1 - 1, c.2) (ChunkPos.ChunkPos (CHUNK_SIZE - 1) 0)).
Proof.
  split; [|split].
  - intros a b Ha Hb. rewrite (overflowing_sub_valid a b Ha Hb).
    destruct Ha as [Hax Hay], Hb as [Hbx Hby].
    unfold ChunkPos.valid, ChunkPos.x, ChunkPos.y in *; simpl.
    rewrite !Z.ltb_lt.
    repeat split; try (apply Z.mod_pos_bound; unfold CHUNK_SIZE; lia); lia.
  - intros [c1x c1y] [c2x c2y]. reflexivity.
  - intros [cx cy]. reflexivity.
Qed.

(** C7. Constructing a [ChunkPos] fails ([try_new] gives [None], [new] panics)
    exactly when [x >= CHUNK_SIZE] or [y >= CHUNK_SIZE]; otherwise the result has
    the given coordinates, and for [u8] inputs it satisfies the range invariant. *)
Theorem chunk_pos_new_fails_iff_out_of_range (x y : Z) :
  (ChunkPos.try_new x y = None <-> CHUNK_SIZE <= x \/ CHUNK_SIZE <= y) /\
  (ChunkPos.new x y = None <-> CHUNK_SIZE <= x \/ CHUNK_SIZE <= y) /\
  (forall p, ChunkPos.try_new x y = Some p -> ChunkPos.x p = x /\ ChunkPos.y p = y) /\
  (x < CHUNK_SIZE -> y < CHUNK_SIZE ->
     ChunkPos.new x y = Some (ChunkPos.ChunkPos x y)) /\
  (is_u8 x -> is_u8 y -> forall p, ChunkPos.new x y = Some p -> ChunkPos.valid p).
Proof.
  unfold ChunkPos.new, ChunkPos.try_new.
  destruct (x <? CHUNK_SIZE) eqn:Hx, (y <? CHUNK_SIZE) eqn:Hy; simpl;
    rewrite ?Z.ltb_lt, ?Z.ltb_ge in Hx; rewrite ?Z.ltb_lt, ?Z.ltb_ge in Hy.
  - split; [split; [discriminate | lia]|].
    split; [split; [discriminate | lia]|].
    split; [intros p [= <-]; split; reflexivity|].
    split; [intros; reflexivity|].
    intros Hu Hv p [= <-]. unfold is_u8, ChunkPos.valid in *. simpl. lia.
  - split; [split; [intros; lia | reflexivity]|].
    split; [split; [intros; lia | reflexivity]|].
    split; [intros; discriminate|]. split; [intros; lia|]. intros; discriminate.
  - split; [split; [intros; lia | reflexivity]|].
    split; [split; [intros; lia | reflexivity]|].
    split; [intros; discriminate|]. split; [intros; lia|]. intros; discriminate.
  - split; [split; [intros; lia | reflexivity]|].
    split; [split; [intros; lia | reflexivity]|].
    split; [intros; discriminate|]. split; [intros; lia|]. intros; discriminate.
Qed.

(** C8. The row-major index [x + y * CHUNK_SIZE] maps the in-range positions into
    [0, CHUNK_SIZE * CHUNK_SIZE), and every integer of that range is the index of
    exactly one in-range position. *)
Theorem as_index_bijection :
  (forall p : ChunkPos, ChunkPos.valid p ->
     0 <= ChunkPos.as_index p < CHUNK_SIZE * CHUNK_SIZE) /\
  (forall i : Z, 0 <= i < CHUNK_SIZE * CHUNK_SIZE ->
     exists p : ChunkPos, ChunkPos.valid p /\ ChunkPos.as_index p = i /\
       forall q : ChunkPos, ChunkPos.valid q -> ChunkPos.as_index q = i -> q = p).
Proof.
  unfold ChunkPos.valid, ChunkPos.as_index, CHUNK_SIZE. split.
  - intros [px py] [Hx Hy]; simpl in *. lia.
  - intros i Hi. exists (ChunkPos.ChunkPos (i mod 32) (i / 32)); simpl.
    pose proof (Z.div_mod i 32 ltac:(lia)) as Hdm.
    pose proof (Z.mod_pos_bound i 32 ltac:(lia)) as Hm.
    split; [split|split].
    + exact Hm.
    + split; [apply Z.div_pos|apply Z.div_lt_upper_bound]; lia.
    + lia.
    + intros [qx qy] [Hqx Hqy] Hq; simpl in *.
      assert (qy = i / 32) by lia. subst qy.
      f_equal. lia.
Qed.

(** C10 (code_bug). [set_x] and [set_y] are documented to panic when the value is
    [>= CHUNK_SIZE], but assert [<= CHUNK_SIZE]; and [set_y] writes field 0, the
    x coordinate. From [(0, 0)], [set_y 5] yields [(5, 0)] (y stays 0, x changes)
    and [set_x 32] succeeds with an out-of-range position. *)
Theorem chunk_pos_setters_slips :
  ChunkPos.set_y (ChunkPos.ChunkPos 0 0) 5 = Some (ChunkPos.ChunkPos 5 0) /\
  ChunkPos.set_x (ChunkPos.ChunkPos 0 0) 32 = Some (ChunkPos.ChunkPos 32 0) /\
  ChunkPos.set_y (ChunkPos.ChunkPos 0 0) 32 = Some (ChunkPos.ChunkPos 32 0) /\
  ~ ChunkPos.valid (ChunkPos.ChunkPos 32 0) /\
  (forall (p : ChunkPos) (v : Z), ChunkPos.set_y p v <> None ->
     exists q, ChunkPos.set_y p v = Some q /\ ChunkPos.x q = v /\ ChunkPos.y q = ChunkPos.y p).
Proof.
  split; [reflexivity|]. split; [reflexivity|]. split; [reflexivity|]. split.
  - unfold ChunkPos.valid, CHUNK_SIZE; simpl. lia.
  - intros p v. unfold ChunkPos.set_y.
    destruct (v <=? CHUNK_SIZE); [|congruence].
    intros _. eexists; split; [reflexivity|]. split; reflexivity.
Qed.

(** C2 (code_bug). [From<IVec2> for TilemapPos] should be inverted by
    [From<TilemapPos> for IVec2] on every pair, with floor division for the chunk
    part. The local part is the masked (floor) remainder, but the chunk part is
    glam's [/], which rounds toward zero: [(-1, -1)] becomes chunk [(0, 0)] with
    local [(31, 31)] and converts back to [(31, 31)]. The round trip does hold on
    pairs with non-negative components. *)
Theorem from_ivec2_truncates_negative :
  TilemapPos.from_ivec2 (-1, -1)
    = Some (TilemapPos.TilemapPos (0, 0) (ChunkPos.ChunkPos 31 31)) /\
  option_map TilemapPos.to_ivec2 (TilemapPos.from_ivec2 (-1, -1)) = Some (31, 31) /\
  (forall v : IVec2, 0 <= v.1 -> 0 <= v.2 ->
     option_map TilemapPos.to_ivec2 (TilemapPos.from_ivec2 v) = Some v).
Proof.
  split; [reflexivity|]. split; [reflexivity|].
  intros [vx vy] Hx Hy; simpl in *.
  unfold TilemapPos.from_ivec2, ChunkPos.new, ChunkPos.try_new. simpl.
  rewrite !mask_u8_wrap.
  pose proof (Z.mod_pos_bound vx CHUNK_SIZE ltac:(unfold CHUNK_SIZE; lia)).
  pose proof (Z.mod_pos_bound vy CHUNK_SIZE ltac:(unfold CHUNK_SIZE; lia)).
  replace (vx mod CHUNK_SIZE <? CHUNK_SIZE) with true by (symmetry; apply Z.ltb_lt; lia).
  replace (vy mod CHUNK_SIZE <? CHUNK_SIZE) with true by (symmetry; apply Z.ltb_lt; lia).
  simpl. unfold TilemapPos.to_ivec2, ivec2_add, ChunkPos.as_ivec2; simpl.
  rewrite !Z.quot_div_nonneg by (unfold CHUNK_SIZE; lia).
  pose proof (Z.div_mod vx CHUNK_SIZE ltac:(unfold CHUNK_SIZE; lia)).
  pose proof (Z.div_mod vy CHUNK_SIZE ltac:(unfold CHUNK_SIZE; lia)).
  f_equal. f_equal; lia.
Qed.

(** C9. Adding or subtracting a chunk delta [d : IVec2] keeps the local part and
    translates the chunk part by exactly [+d] or [-d]; the same holds for the
    assigning forms [+=] and [-=]. *)
Theorem ivec2_delta_keeps_local (p : TilemapPos) (d : IVec2) :
  TilemapPos.tile (TilemapPos.add_ivec2 p d) = TilemapPos.tile p /\
  TilemapPos.chunk (TilemapPos.add_ivec2 p d)
    = ((TilemapPos.chunk p).1 + d.1, (TilemapPos.chunk p).2 + d.2) /\
  TilemapPos.tile (TilemapPos.sub_ivec2 p d) = TilemapPos.tile p /\
  TilemapPos.chunk (TilemapPos.sub_ivec2 p d)
    = ((TilemapPos.chunk p).1 - d.1, (TilemapPos.chunk p).2 - d.2) /\
  TilemapPos.add_assign_ivec2 p d = TilemapPos.add_ivec2 p d /\
  TilemapPos.sub_assign_ivec2 p d = TilemapPos.sub_ivec2 p d /\
  TilemapPos.to_ivec2 (TilemapPos.add_ivec2 p d)
    = ivec2_add (TilemapPos.to_ivec2 p) (d.1 * CHUNK_SIZE, d.2 * CHUNK_SIZE).
Proof.
  destruct p as [[cx cy] [tx ty]], d as [dx dy].
  repeat split.
  cbv [TilemapPos.to_ivec2 TilemapPos.add_ivec2 ivec2_add ChunkPos.as_ivec2]; simpl.
  f_equal; lia.
Qed.

(** ** Chunk slots *)

Lemma as_index_inj (p q : ChunkPos) :
  ChunkPos.valid p -> ChunkPos.valid q ->
  ChunkPos.as_index p = ChunkPos.as_index q -> p = q.
Proof.
  destruct p as [px py], q as [qx qy].
  unfold ChunkPos.valid, ChunkPos.as_index, CHUNK_SIZE; simpl.
  intros [Hpx Hpy] [Hqx Hqy] Heq.
  assert (py = qy) by lia. subst qy. f_equal. lia.
Qed.

Lemma as_index_nat_lt (p : ChunkPos) :
  ChunkPos.valid p -> (Z.to_nat (ChunkPos.as_index p) < Z.to_nat (CHUNK_SIZE * CHUNK_SIZE))%nat.
Proof.
  destruct p as [px py]. unfold ChunkPos.valid, ChunkPos.as_index, CHUNK_SIZE; simpl.
  intros [Hx Hy]. apply Z2Nat.inj_lt; lia.
Qed.

Lemma as_index_nat_inj (p q : ChunkPos) :
  ChunkPos.valid p -> ChunkPos.valid q -> p <> q ->
  Z.to_nat (ChunkPos.as_index p) <> Z.to_nat (ChunkPos.as_index q).
Proof.
  intros Hp Hq Hne Heq. apply Hne. apply as_index_inj; [exact Hp | exact Hq |].
  destruct p as [px py], q as [qx qy].
  unfold ChunkPos.valid, ChunkPos.as_index, CHUNK_SIZE in *; simpl in *.
  apply Z2Nat.inj in Heq; lia.
Qed.

Section Slots.
Context {T Carry Entity : Type}.
Implicit Types (c : Chunk T Carry Entity).

(** Writing one slot: the prior occupant is returned, the slot holds the new
    value, the length is kept, and every other in-range position is untouched. *)
Lemma replace_slot_frame c (pos : ChunkPos) (v : option T) :
  Chunk.wf c -> ChunkPos.valid pos ->
  exists old, Chunk.index c pos = Some old /\
    Chunk.replace_slot c pos v
      = Some (Chunk.with_tiles c (<[Z.to_nat (ChunkPos.as_index pos) := v]> (Chunk.tiles c)), old) /\
    Chunk.index (Chunk.with_tiles c (<[Z.to_nat (ChunkPos.as_index pos) := v]> (Chunk.tiles c))) pos
      = Some v /\
    Chunk.wf (Chunk.with_tiles c (<[Z.to_nat (ChunkPos.as_index pos) := v]> (Chunk.tiles c))) /\
    forall q, ChunkPos.valid q -> q <> pos ->
      Chunk.index (Chunk.with_tiles c (<[Z.to_nat (ChunkPos.as_index pos) := v]> (Chunk.tiles c))) q
      = Chunk.index c q.
Proof.
  intros Hwf Hpos. unfold Chunk.wf in Hwf.
  pose proof (as_index_nat_lt pos Hpos) as Hlt.
  destruct (lookup_lt_is_Some_2 (Chunk.tiles c) (Z.to_nat (ChunkPos.as_index pos)))
    as [old Hold]; [lia|].
  exists old. unfold Chunk.index, Chunk.replace_slot. rewrite Hold.
  split; [reflexivity|]. split; [reflexivity|]. simpl. split; [|split].
  - apply list_lookup_insert_eq. lia.
  - unfold Chunk.wf; simpl. rewrite length_insert. exact Hwf.
  - intros q Hq Hne. apply list_lookup_insert_ne.
    apply not_eq_sym, as_index_nat_inj; assumption.
Qed.

End Slots.

(** C5. On a chunk (its array of [CHUNK_SIZE * CHUNK_SIZE] slots) and an in-range
    position, [Chunk::set] returns the prior occupant, leaves the new tile in the
    slot and sets the dirty flag whatever the previous tile was; [Chunk::remove]
    returns the prior occupant, empties the slot and sets the dirty flag. In both
    cases the other positions, the carry data and the mesh entity are unchanged. *)
Theorem chunk_set_remove_slot {T Carry Entity : Type}
    (c : Chunk T Carry Entity) (pos : ChunkPos) (tile : T) :
  Chunk.wf c -> ChunkPos.valid pos ->
  (exists c' old, Chunk.set c pos tile = Some (c', old) /\
     Chunk.index c pos = Some old /\
     Chunk.index c' pos = Some (Some tile) /\
     Chunk.regenerate_mesh c' = true /\
     Chunk.mesh_carry_data c' = Chunk.mesh_carry_data c /\
     Chunk.mesh_entity c' = Chunk.mesh_entity c /\
     Chunk.wf c' /\
     (forall q, ChunkPos.valid q -> q <> pos -> Chunk.index c' q = Chunk.index c q)) /\
  (exists c' old, Chunk.remove c pos = Some (c', old) /\
     Chunk.index c pos = Some old /\
     Chunk.index c' pos = Some None /\
     Chunk.regenerate_mesh c' = true /\
     Chunk.mesh_carry_data c' = Chunk.mesh_carry_data c /\
     Chunk.mesh_entity c' = Chunk.mesh_entity c /\
     Chunk.wf c' /\
     (forall q, ChunkPos.valid q -> q <> pos -> Chunk.index c' q = Chunk.index c q)).
Proof.
  intros Hwf Hpos.
  assert (Hwf' : Chunk.wf (Chunk.set_regenerate_mesh c)) by exact Hwf.
  split.
  - destruct (replace_slot_frame (Chunk.set_regenerate_mesh c) pos (Some tile) Hwf' Hpos)
      as (old & Hidx & Hrep & Hnew & Hwf2 & Hother).
    unfold Chunk.set. rewrite Hrep.
    do 2 eexists. split; [reflexivity|].
    split; [exact Hidx|]. split; [exact Hnew|].
    split; [reflexivity|]. split; [reflexivity|]. split; [reflexivity|].
    split; [exact Hwf2|]. exact Hother.
  - destruct (replace_slot_frame (Chunk.set_regenerate_mesh c) pos None Hwf' Hpos)
      as (old & Hidx & Hrep & Hnew & Hwf2 & Hother).
    unfold Chunk.remove. rewrite Hrep.
    do 2 eexists. split; [reflexivity|].
    split; [exact Hidx|]. split; [exact Hnew|].
    split; [reflexivity|]. split; [reflexivity|]. split; [reflexivity|].
    split; [exact Hwf2|]. exact Hother.
Qed.

Lemma chunk_set_remove_slot_witness :
  exists c' old,
    Chunk.set (Chunk.default (T:=nat) (Entity:=nat) 0%nat) (ChunkPos.ChunkPos 3 4) 9%nat
      = Some (c', old) /\
    Chunk.index (Chunk.default (T:=nat) (Entity:=nat) 0%nat) (ChunkPos.ChunkPos 3 4) = Some old /\
    Chunk.regenerate_mesh c' = true.
Proof.
  destruct (chunk_set_remove_slot (Chunk.default (T:=nat) (Entity:=nat) 0%nat)
              (ChunkPos.ChunkPos 3 4) 9%nat)
    as [(c' & old & Hset & Hidx & _ & Hdirty & _) _].
  - reflexivity.
  - unfold ChunkPos.valid, CHUNK_SIZE; simpl; lia.
  - exists c', old. split; [exact Hset|]. split; [exact Hidx | exact Hdirty].
Defined.

(** ** The sparse chunk map *)

Section Sparse.
Context {T Carry Entity : Type}.
Context (carry_default : Carry).
Implicit Types (m : gmap IVec2 (Chunk T Carry Entity)) (pos : TilemapPos).

Lemma default_wf : Chunk.wf (Chunk.default (T:=T) (Entity:=Entity) carry_default).
Proof. unfold Chunk.wf, Chunk.default. cbn [Chunk.tiles]. apply length_replicate. Qed.

Lemma default_index (p : ChunkPos) :
  ChunkPos.valid p ->
  Chunk.index (Chunk.default (T:=T) (Entity:=Entity) carry_default) p = Some None.
Proof.
  intros Hp. unfold Chunk.index, Chunk.default; cbn [Chunk.tiles].
  apply lookup_replicate_2. apply as_index_nat_lt. exact Hp.
Qed.

Lemma tilemap_set_dom m pos (tile : T) m' old :
  Tilemap.set carry_default m pos tile = Some (m', old) ->
  dom m' = {[TilemapPos.chunk pos]} ∪ dom m.
Proof.
  unfold Tilemap.set, Tilemap.get_or_create_chunk.
  destruct (m !! TilemapPos.chunk pos) as [c|] eqn:Hm.
  - destruct (Chunk.set c (TilemapPos.tile pos) tile) as [[c' o]|]; [|discriminate].
    intros [= <- _]. rewrite dom_insert_L.
    apply elem_of_dom_2 in Hm. set_solver.
  - destruct (Chunk.set _ (TilemapPos.tile pos) tile) as [[c' o]|]; [|discriminate].
    intros [= <- _]. rewrite !dom_insert_L. set_solver.
Qed.

Lemma tilemap_remove_dom m pos m' old :
  Tilemap.remove m pos = Some (m', old) -> dom m' = dom m.
Proof.
  unfold Tilemap.remove, Tilemap.get_chunk.
  destruct (m !! TilemapPos.chunk pos) as [c|] eqn:Hm.
  - destruct (Chunk.remove c (TilemapPos.tile pos)) as [[c' o]|]; [|discriminate].
    intros [= <- _]. rewrite dom_insert_L.
    apply elem_of_dom_2 in Hm. set_solver.
  - intros [= <- _]. reflexivity.
Qed.

Lemma tilemap_step_dom m (o : Tilemap.op) m' :
  Tilemap.step carry_default m o = Some m' ->
  dom m' = list_to_set (Tilemap.written_chunks [o]) ∪ dom m.
Proof.
  destruct o as [pos|cpos|pos tile|pos]; simpl.
  - destruct (Tilemap.get m pos); simpl; [|discriminate]. intros [= <-]. set_solver.
  - intros [= <-]. set_solver.
  - destruct (Tilemap.set carry_default m pos tile) as [[m1 old]|] eqn:Hs; simpl;
      [|discriminate].
    intros [= <-]. rewrite (tilemap_set_dom _ _ _ _ _ Hs). set_solver.
  - destruct (Tilemap.remove m pos) as [[m1 old]|] eqn:Hr; simpl; [|discriminate].
    intros [= <-]. rewrite (tilemap_remove_dom _ _ _ _ Hr). set_solver.
Qed.

Lemma tilemap_run_dom (ops : list (Tilemap.op (T:=T))) m m' :
  Tilemap.run carry_default m ops = Some m' ->
  forall k, k ∈ dom m' <-> k ∈ dom m \/ k ∈ Tilemap.written_chunks ops.
Proof.
  revert m. induction ops as [|o ops IH]; intros m Hrun k; simpl in Hrun.
  - injection Hrun as <-. simpl. set_solver.
  - destruct (Tilemap.step carry_default m o) as [m1|] eqn:Hstep; simpl in Hrun;
      [|discriminate].
    rewrite (IH m1 Hrun k).
    pose proof (tilemap_step_dom m o m1 Hstep) as Hd.
    assert (Hw : Tilemap.written_chunks (o :: ops)
                 = Tilemap.written_chunks [o] ++ Tilemap.written_chunks ops)
      by (destruct o; reflexivity).
    rewrite Hw, Hd. set_solver.
Qed.

End Sparse.

(** C4. The chunk map stays sparse. On a chunk coordinate absent from the map,
    [get] and [get_chunk] report absence and leave the map as it is, [remove] is a
    no-op returning nothing, and [set] inserts exactly one chunk (the key count
    grows by one); a [set] on a chunk already present adds no chunk. Over any
    trace of tile-level operations from the empty map, a chunk coordinate is
    present exactly when some [set] of the trace wrote a tile into it. *)
Theorem tilemap_sparse_allocation {T Carry Entity : Type} (carry_default : Carry) :
  (forall (m : gmap IVec2 (Chunk T Carry Entity)) (pos : TilemapPos),
     m !! TilemapPos.chunk pos = None ->
     Tilemap.get_chunk m (TilemapPos.chunk pos) = None /\
     Tilemap.get m pos = Some None /\
     Tilemap.step carry_default m (Tilemap.OpGet pos) = Some m /\
     Tilemap.step carry_default m (Tilemap.OpGetChunk (TilemapPos.chunk pos)) = Some m) /\
  (forall (m : gmap IVec2 (Chunk T Carry Entity)) (pos : TilemapPos),
     m !! TilemapPos.chunk pos = None ->
     Tilemap.remove m pos = Some (m, None)) /\
  (forall (m : gmap IVec2 (Chunk T Carry Entity)) (pos : TilemapPos) (tile : T),
     m !! TilemapPos.chunk pos = None -> ChunkPos.valid (TilemapPos.tile pos) ->
     exists m', Tilemap.set carry_default m pos tile = Some (m', None) /\
       size m' = S (size m) /\ dom m' = {[TilemapPos.chunk pos]} ∪ dom m) /\
  (forall (m : gmap IVec2 (Chunk T Carry Entity)) (pos : TilemapPos) (tile : T) m' old,
     is_Some (m !! TilemapPos.chunk pos) ->
     Tilemap.set carry_default m pos tile = Some (m', old) ->
     size m' = size m /\ dom m' = dom m) /\
  (forall (ops : list (Tilemap.op (T:=T))) (m : gmap IVec2 (Chunk T Carry Entity)),
     Tilemap.run carry_default ∅ ops = Some m ->
     forall k, k ∈ dom m <-> k ∈ Tilemap.written_chunks ops).
Proof.
  split; [|split; [|split; [|split]]].
  - intros m pos Hm. unfold Tilemap.step, Tilemap.get, Tilemap.get_chunk.
    rewrite Hm. repeat split.
  - intros m pos Hm. unfold Tilemap.remove, Tilemap.get_chunk. rewrite Hm. reflexivity.
  - intros m pos tile Hm Hpos.
    destruct (replace_slot_frame (Chunk.set_regenerate_mesh (Chunk.default (T:=T) (Entity:=Entity) carry_default))
                (TilemapPos.tile pos) (Some tile) (default_wf carry_default) Hpos)
      as (old & Hidx & Hrep & _).
    assert (old = None) as ->.
    { pose proof (default_index (T:=T) (Entity:=Entity) carry_default
                    (TilemapPos.tile pos) Hpos) as Hd.
      unfold Chunk.index in Hd, Hidx.
      cbn [Chunk.set_regenerate_mesh Chunk.tiles] in Hidx. congruence. }
    unfold Tilemap.set, Tilemap.get_or_create_chunk. rewrite Hm.
    unfold Chunk.set. rewrite Hrep.
    eexists. split; [reflexivity|]. rewrite insert_insert_eq. split.
    + apply map_size_insert_None. exact Hm.
    + apply dom_insert_L.
  - intros m pos tile m' old [c Hc] Hs. split.
    + revert Hs. unfold Tilemap.set, Tilemap.get_or_create_chunk. rewrite Hc.
      destruct (Chunk.set c (TilemapPos.tile pos) tile) as [[c' o]|]; [|discriminate].
      intros [= <- _]. apply map_size_insert_Some. exists c. exact Hc.
    + rewrite (tilemap_set_dom carry_default _ _ _ _ _ Hs).
      apply elem_of_dom_2 in Hc. set_solver.
  - intros ops m Hrun k. rewrite (tilemap_run_dom carry_default ops ∅ m Hrun k).
    rewrite dom_empty_L. set_solver.
Qed.

(** ** The mesh pass *)

(** [ChunkPos::iter_positions] lists the [CHUNK_SIZE * CHUNK_SIZE] positions in
    row-major order: the [i]-th has index [i], and all are in range. *)
Lemma iter_positions_row_major :
  map ChunkPos.as_index ChunkPos.iter_positions
    = map Z.of_nat (seq 0 (Z.to_nat (CHUNK_SIZE * CHUNK_SIZE))) /\
  Forall (fun p => ChunkPos.valid p) ChunkPos.iter_positions.
Proof.
  split.
  - vm_compute. reflexivity.
  - assert (Hb : forallb (fun p => (0 <=? ChunkPos.f0 p) && (ChunkPos.f0 p <? CHUNK_SIZE) &&
                                    (0 <=? ChunkPos.f1 p) && (ChunkPos.f1 p <? CHUNK_SIZE))
                         ChunkPos.iter_positions = true) by (vm_compute; reflexivity).
    apply Forall_forall. intros p Hin.
    rewrite forallb_forall in Hb. specialize (Hb p (proj1 (list_elem_of_In _ _) Hin)).
    rewrite !andb_true_iff, !Z.leb_le, !Z.ltb_lt in Hb.
    unfold ChunkPos.valid. lia.
Qed.

(** Taking the carry data does not change the tiles the pass visits. *)
Lemma iter_tile_positions_with_carry {T Carry Entity : Type}
    (c : Chunk T Carry Entity) (cd : Carry) :
  Chunk.iter_tile_positions (Chunk.with_carry c cd) = Chunk.iter_tile_positions c.
Proof. reflexivity. Qed.

(** C3 (code_bug). The rebuild pass should leave a dirty chunk clean. For a chunk
    whose dirty flag is set, the pass takes its carry data, feeds the occupied
    slots in row-major order to the builder seeded with it, and stores the
    builder's new carry data, but the flag is never reset: it is still set after
    the pass, so the chunk is rebuilt on every later pass. A chunk whose flag is
    unset is left as it is. *)
Theorem generate_meshes_keeps_dirty_flag
    {T Carry Entity Builder Mesh : Type} (carry_default : Carry)
    (init : Carry -> Builder) (set_offset : Builder -> IVec2 -> Builder)
    (add_to_mesh : T -> Builder -> Builder) (finish : Builder -> Mesh * Carry)
    (mesh_alive : Entity -> bool) (spawn : IVec2 -> Mesh -> Entity)
    (m : gmap IVec2 (Chunk T Carry Entity)) (pos : IVec2) (c : Chunk T Carry Entity) :
  m !! pos = Some c ->
  exists c',
    Lib.generate_meshes carry_default init set_offset add_to_mesh finish mesh_alive spawn m
      !! pos = Some c' /\
    if Chunk.regenerate_mesh c then
      Chunk.mesh_carry_data c'
        = snd (finish (Lib.feed_tiles set_offset add_to_mesh
                         (init (Chunk.mesh_carry_data c)) (Chunk.iter_tile_positions c))) /\
      Chunk.tiles c' = Chunk.tiles c /\
      Chunk.regenerate_mesh c' = true
    else c' = c.
Proof.
  intros Hm. unfold Lib.generate_meshes. rewrite map_lookup_imap, Hm. cbn [mbind option_bind].
  destruct (Chunk.regenerate_mesh c) eqn:Hdirty.
  - unfold Lib.rebuild_chunk.
    rewrite iter_tile_positions_with_carry.
    destruct (finish _) as [new_mesh carry_data] eqn:Hfin.
    unfold Chunk.with_carry, Chunk.with_entity.
    cbn [Chunk.mesh_entity Chunk.mesh_carry_data Chunk.tiles Chunk.regenerate_mesh].
    destruct (Chunk.mesh_entity c) as [e|];
      [destruct (mesh_alive e)|];
      (eexists; split; [reflexivity|]);
      cbn [Chunk.mesh_carry_data Chunk.tiles Chunk.regenerate_mesh snd];
      repeat split; assumption.
  - eexists. split; reflexivity.
Qed.

Lemma generate_meshes_keeps_dirty_flag_witness :
  exists c',
    Lib.generate_meshes (T:=nat) (Entity:=nat) 0%nat (fun n => [n]) (fun b _ => b) cons
      (fun b => (tt, length b)) (fun _ => false) (fun _ _ => 7%nat)
      {[(0, 0) := Chunk.Chunk [Some 5%nat; None; Some 6%nat] true 0%nat None]}
      !! (0, 0) = Some c' /\
    if Chunk.regenerate_mesh (Chunk.Chunk (Entity:=nat) [Some 5%nat; None; Some 6%nat] true 0%nat None)
    then
      Chunk.mesh_carry_data c'
        = snd ((fun b => (tt, length b))
                 (Lib.feed_tiles (fun b _ => b) cons [0%nat]
                    (Chunk.iter_tile_positions
                       (Chunk.Chunk (Entity:=nat) [Some 5%nat; None; Some 6%nat] true 0%nat None)))) /\
      Chunk.tiles c' = [Some 5%nat; None; Some 6%nat] /\
      Chunk.regenerate_mesh c' = true
    else c' = Chunk.Chunk [Some 5%nat; None; Some 6%nat] true 0%nat None.
Proof.
  apply (generate_meshes_keeps_dirty_flag (T:=nat) (Entity:=nat) 0%nat (fun n => [n])
           (fun b _ => b) cons (fun b => (tt, length b)) (fun _ => false) (fun _ _ => 7%nat)
           {[(0, 0) := Chunk.Chunk [Some 5%nat; None; Some 6%nat] true 0%nat None]} (0, 0)
           (Chunk.Chunk [Some 5%nat; None; Some 6%nat] true 0%nat None)).
  reflexivity.
Defined.

(** * Further properties of the code *)

(** ** Helpers *)

Lemma land_mask_bound (z : Z) : 0 <= z -> 0 <= Z.land z MASK < CHUNK_SIZE.
Proof.
  intros Hz. rewrite mask_mod. apply Z.mod_pos_bound. unfold CHUNK_SIZE. lia.
Qed.

Lemma u8_wrap_nonneg (z : Z) : 0 <= u8_wrap z.
Proof. unfold u8_wrap. apply Z.mod_pos_bound. lia. Qed.

Lemma mod_chunk_wrap (z : Z) : CHUNK_SIZE <= z < 2 * CHUNK_SIZE -> z mod CHUNK_SIZE = z - CHUNK_SIZE.
Proof.
  intros H. symmetry. apply Z.mod_unique with 1; unfold CHUNK_SIZE in *; lia.
Qed.

Lemma mod_chunk_neg (z : Z) : - CHUNK_SIZE <= z < 0 -> z mod CHUNK_SIZE = z + CHUNK_SIZE.
Proof.
  intros H. symmetry. apply Z.mod_unique with (-1); unfold CHUNK_SIZE in *; lia.
Qed.

Lemma iter_positions_indices :
  ChunkPos.as_index <$> ChunkPos.iter_positions
    = (fun i => Z.of_nat i) <$> seq 0 (Z.to_nat (CHUNK_SIZE * CHUNK_SIZE)).
Proof. vm_compute. reflexivity. Qed.

Lemma iter_positions_valid (p : ChunkPos) :
  p ∈ ChunkPos.iter_positions -> ChunkPos.valid p.
Proof.
  intros Hin.
  assert (Hb : forallb (fun p => (0 <=? ChunkPos.f0 p) && (ChunkPos.f0 p <? CHUNK_SIZE) &&
                                  (0 <=? ChunkPos.f1 p) && (ChunkPos.f1 p <? CHUNK_SIZE))
                       ChunkPos.iter_positions = true) by (vm_compute; reflexivity).
  rewrite forallb_forall in Hb. specialize (Hb p (proj1 (list_elem_of_In _ _) Hin)).
  rewrite !andb_true_iff, !Z.leb_le, !Z.ltb_lt in Hb.
  unfold ChunkPos.valid. lia.
Qed.

(** The [i]-th position of [iter_positions] is the one of index [i]. *)
Lemma iter_positions_lookup (i : nat) (p : ChunkPos) :
  ChunkPos.iter_positions !! i = Some p -> ChunkPos.as_index p = Z.of_nat i.
Proof.
  intros Hi.
  pose proof (f_equal (fun l => l !! i) iter_positions_indices) as Hl. cbv beta in Hl.
  rewrite !list_lookup_fmap, Hi in Hl. cbn [fmap option_fmap option_map] in Hl.
  destruct (seq 0 (Z.to_nat (CHUNK_SIZE * CHUNK_SIZE)) !! i) as [j|] eqn:Hj;
    cbn [fmap option_fmap option_map] in Hl; [|discriminate].
  apply lookup_seq in Hj. injection Hl as ->. f_equal. lia.
Qed.

Lemma iter_positions_lookup_valid (p : ChunkPos) :
  ChunkPos.valid p ->
  ChunkPos.iter_positions !! Z.to_nat (ChunkPos.as_index p) = Some p.
Proof.
  intros Hp. pose proof (as_index_nat_lt p Hp) as Hlt.
  assert (Hlen : length ChunkPos.iter_positions = Z.to_nat (CHUNK_SIZE * CHUNK_SIZE))
    by (vm_compute; reflexivity).
  destruct (lookup_lt_is_Some_2 ChunkPos.iter_positions (Z.to_nat (ChunkPos.as_index p)))
    as [q Hq]; [lia|].
  rewrite Hq. f_equal.
  pose proof (iter_positions_lookup _ _ Hq) as Hidx.
  apply as_index_inj.
  - apply iter_positions_valid. eapply list_elem_of_lookup_2. exact Hq.
  - exact Hp.
  - rewrite Hidx. clear Hq Hidx. destruct p as [px py].
    unfold ChunkPos.valid, ChunkPos.as_index in *. cbn [ChunkPos.f0 ChunkPos.f1] in *.
    unfold CHUNK_SIZE in *. lia.
Qed.

(** ** [ChunkPos] arithmetic and conversions *)

(** X1. Whatever the operands, [wrapping_add], [wrapping_sub], [overflowing_add]
    and [overflowing_sub] yield an in-range position; [wrapping_add] and
    [wrapping_sub] are the component-wise sum and difference modulo [CHUNK_SIZE]. *)
Theorem chunk_pos_wrapping_ops_in_range (a b : ChunkPos) :
  ChunkPos.valid (ChunkPos.wrapping_add a b) /\
  ChunkPos.valid (ChunkPos.wrapping_sub a b) /\
  ChunkPos.valid (fst (ChunkPos.overflowing_add a b)) /\
  ChunkPos.valid (fst (ChunkPos.overflowing_sub a b)) /\
  ChunkPos.wrapping_add a b
    = ChunkPos.ChunkPos ((ChunkPos.x a + ChunkPos.x b) mod CHUNK_SIZE)
                        ((ChunkPos.y a + ChunkPos.y b) mod CHUNK_SIZE) /\
  ChunkPos.wrapping_sub a b
    = ChunkPos.ChunkPos ((ChunkPos.x a - ChunkPos.x b) mod CHUNK_SIZE)
                        ((ChunkPos.y a - ChunkPos.y b) mod CHUNK_SIZE).
Proof.
  unfold ChunkPos.wrapping_add, ChunkPos.wrapping_sub, ChunkPos.overflowing_add,
    ChunkPos.overflowing_sub, ChunkPos.overflowing_add_u8, ChunkPos.overflowing_sub_u8,
    u8_overflowing_sub, u8_wrapping_add, u8_wrapping_sub, ChunkPos.valid; cbn.
  rewrite !mask_u8_wrap.
  assert (Hb : forall z, 0 <= z mod CHUNK_SIZE < CHUNK_SIZE)
    by (intros z; apply Z.mod_pos_bound; unfold CHUNK_SIZE; lia).
  repeat split; apply Hb.
Qed.

(** X2. On in-range positions [wrapping_sub] undoes [wrapping_add] and the other
    way round. *)
Theorem chunk_pos_wrapping_roundtrip (a b : ChunkPos) :
  ChunkPos.valid a ->
  ChunkPos.wrapping_sub (ChunkPos.wrapping_add a b) b = a /\
  ChunkPos.wrapping_add (ChunkPos.wrapping_sub a b) b = a.
Proof.
  destruct a as [ax ay], b as [bx' by'].
  unfold ChunkPos.valid; cbn. intros [Hx Hy].
  unfold ChunkPos.wrapping_add, ChunkPos.wrapping_sub, u8_wrapping_add, u8_wrapping_sub,
    ChunkPos.x, ChunkPos.y; cbn.
  rewrite !mask_u8_wrap.
  rewrite !Zminus_mod_idemp_l, !Zplus_mod_idemp_l.
  replace (ax + bx' - bx') with ax by lia. replace (ay + by' - by') with ay by lia.
  replace (ax - bx' + bx') with ax by lia. replace (ay - by' + by') with ay by lia.
  rewrite !Z.mod_small by lia. split; reflexivity.
Qed.

Lemma chunk_pos_wrapping_roundtrip_witness :
  ChunkPos.wrapping_sub (ChunkPos.wrapping_add (ChunkPos.ChunkPos 30 2) (ChunkPos.ChunkPos 5 31))
                        (ChunkPos.ChunkPos 5 31) = ChunkPos.ChunkPos 30 2.
Proof.
  apply (chunk_pos_wrapping_roundtrip (ChunkPos.ChunkPos 30 2) (ChunkPos.ChunkPos 5 31)).
  unfold ChunkPos.valid, CHUNK_SIZE; cbn. lia.
Defined.

(** X3. On in-range positions, [ChunkPos + ChunkPos] succeeds exactly when both
    component sums stay below [CHUNK_SIZE] (and then is the component-wise sum),
    [ChunkPos - ChunkPos] succeeds exactly when neither component underflows (and
    then is the component-wise difference); [+=] and [-=] behave as [+] and [-]. *)
Theorem chunk_pos_add_sub_checked (a b : ChunkPos) :
  ChunkPos.valid a -> ChunkPos.valid b ->
  ChunkPos.add a b
    = (if (ChunkPos.x a + ChunkPos.x b <? CHUNK_SIZE) && (ChunkPos.y a + ChunkPos.y b <? CHUNK_SIZE)
       then Some (ChunkPos.ChunkPos (ChunkPos.x a + ChunkPos.x b) (ChunkPos.y a + ChunkPos.y b))
       else None) /\
  ChunkPos.sub a b
    = (if (ChunkPos.x b <=? ChunkPos.x a) && (ChunkPos.y b <=? ChunkPos.y a)
       then Some (ChunkPos.ChunkPos (ChunkPos.x a - ChunkPos.x b) (ChunkPos.y a - ChunkPos.y b))
       else None) /\
  ChunkPos.add_assign a b = ChunkPos.add a b /\
  ChunkPos.sub_assign a b = ChunkPos.sub a b.
Proof.
  destruct a as [ax ay], b as [bx' by'].
  unfold ChunkPos.valid, CHUNK_SIZE; cbn. intros [Hax Hay] [Hbx Hby].
  unfold ChunkPos.add, ChunkPos.sub, ChunkPos.add_assign, ChunkPos.sub_assign,
    ChunkPos.new, ChunkPos.try_new, u8_checked_add, u8_checked_sub, ChunkPos.x, ChunkPos.y,
    CHUNK_SIZE; cbn.
  replace (ax + bx' <? 256) with true by (symmetry; apply Z.ltb_lt; lia).
  replace (ay + by' <? 256) with true by (symmetry; apply Z.ltb_lt; lia).
  split; [reflexivity|].
  destruct (bx' <=? ax) eqn:E1, (by' <=? ay) eqn:E2; cbn;
    rewrite ?Z.leb_le, ?Z.leb_gt in E1; rewrite ?Z.leb_le, ?Z.leb_gt in E2;
    try (replace (ax - bx' <? 32) with true by (symmetry; apply Z.ltb_lt; lia));
    try (replace (ay - by' <? 32) with true by (symmetry; apply Z.ltb_lt; lia));
    repeat split; reflexivity.
Qed.

Lemma chunk_pos_add_sub_checked_witness :
  ChunkPos.add (ChunkPos.ChunkPos 20 3) (ChunkPos.ChunkPos 12 4) = None /\
  ChunkPos.sub (ChunkPos.ChunkPos 20 3) (ChunkPos.ChunkPos 12 4) = None.
Proof.
  destruct (chunk_pos_add_sub_checked (ChunkPos.ChunkPos 20 3) (ChunkPos.ChunkPos 12 4))
    as (Hadd & Hsub & _ & _);
    [unfold ChunkPos.valid, CHUNK_SIZE; cbn; lia | unfold ChunkPos.valid, CHUNK_SIZE; cbn; lia |].
  rewrite Hadd, Hsub. split; reflexivity.
Defined.

(** X4. [ChunkPos - b] undoes a successful [ChunkPos + b], and a successful [+]
    agrees with [wrapping_add] (no wrap took place). *)
Theorem chunk_pos_add_then_sub (a b c : ChunkPos) :
  ChunkPos.valid a -> ChunkPos.valid b -> ChunkPos.add a b = Some c ->
  ChunkPos.sub c b = Some a /\ ChunkPos.wrapping_add a b = c /\ ChunkPos.valid c.
Proof.
  destruct a as [ax ay], b as [bx' by'].
  unfold ChunkPos.valid, CHUNK_SIZE; cbn. intros [Hax Hay] [Hbx Hby].
  unfold ChunkPos.add, ChunkPos.sub, ChunkPos.new, ChunkPos.try_new, u8_checked_add,
    u8_checked_sub, CHUNK_SIZE; cbn.
  replace (ax + bx' <? 256) with true by (symmetry; apply Z.ltb_lt; lia).
  replace (ay + by' <? 256) with true by (symmetry; apply Z.ltb_lt; lia).
  destruct (ax + bx' <? 32) eqn:E1, (ay + by' <? 32) eqn:E2; cbn; try discriminate.
  apply Z.ltb_lt in E1, E2. intros [= <-]. cbn.
  replace (bx' <=? ax + bx') with true by (symmetry; apply Z.leb_le; lia).
  replace (by' <=? ay + by') with true by (symmetry; apply Z.leb_le; lia).
  replace (ax + bx' - bx') with ax by lia. replace (ay + by' - by') with ay by lia.
  replace (ax <? 32) with true by (symmetry; apply Z.ltb_lt; lia).
  replace (ay <? 32) with true by (symmetry; apply Z.ltb_lt; lia).
  split; [reflexivity|]. split.
  - unfold ChunkPos.wrapping_add, u8_wrapping_add, ChunkPos.x, ChunkPos.y; cbn.
    rewrite !mask_u8_wrap. rewrite !Z.mod_small by (unfold CHUNK_SIZE; lia). reflexivity.
  - unfold ChunkPos.valid, CHUNK_SIZE; cbn. lia.
Qed.

Lemma chunk_pos_add_then_sub_witness :
  ChunkPos.sub (ChunkPos.ChunkPos 10 20) (ChunkPos.ChunkPos 5 6) = Some (ChunkPos.ChunkPos 5 14).
Proof.
  apply (chunk_pos_add_then_sub (ChunkPos.ChunkPos 5 14) (ChunkPos.ChunkPos 5 6)).
  - unfold ChunkPos.valid, CHUNK_SIZE; cbn; lia.
  - unfold ChunkPos.valid, CHUNK_SIZE; cbn; lia.
  - reflexivity.
Defined.

(** X5. [TryFrom<IVec2>] accepts exactly the pairs with both components in
    [0, CHUNK_SIZE), and it is inverse to [From<ChunkPos> for IVec2] on them. *)
Theorem chunk_pos_try_from_roundtrip :
  (forall v : IVec2, ChunkPos.try_from v = None <->
     ~ (0 <= v.1 < CHUNK_SIZE /\ 0 <= v.2 < CHUNK_SIZE)) /\
  (forall (v : IVec2) (p : ChunkPos), ChunkPos.try_from v = Some p ->
     ChunkPos.valid p /\ ChunkPos.as_ivec2 p = v) /\
  (forall p : ChunkPos, ChunkPos.valid p -> ChunkPos.try_from (ChunkPos.as_ivec2 p) = Some p).
Proof.
  unfold ChunkPos.try_from. split; [|split].
  - intros [vx vy]; cbn.
    destruct (0 <=? vx) eqn:E1, (vx <? CHUNK_SIZE) eqn:E2, (0 <=? vy) eqn:E3,
      (vy <? CHUNK_SIZE) eqn:E4; cbn;
      rewrite ?Z.leb_le, ?Z.leb_gt, ?Z.ltb_lt, ?Z.ltb_ge in E1, E2, E3, E4;
      (split; [intros; try discriminate; lia | intros; try reflexivity; exfalso; lia]).
  - intros [vx vy] p; cbn.
    destruct (0 <=? vx) eqn:E1, (vx <? CHUNK_SIZE) eqn:E2, (0 <=? vy) eqn:E3,
      (vy <? CHUNK_SIZE) eqn:E4; cbn; try discriminate.
    rewrite ?Z.leb_le, ?Z.ltb_lt in E1, E2, E3, E4.
    intros [= <-]. unfold CHUNK_SIZE in *.
    rewrite !u8_wrap_small by lia. unfold ChunkPos.valid, ChunkPos.as_ivec2, CHUNK_SIZE; cbn.
    split; [lia | reflexivity].
  - intros [px py]. unfold ChunkPos.valid, ChunkPos.as_ivec2; cbn. intros [Hx Hy].
    replace (0 <=? px) with true by (symmetry; apply Z.leb_le; lia).
    replace (px <? CHUNK_SIZE) with true by (symmetry; apply Z.ltb_lt; lia).
    replace (0 <=? py) with true by (symmetry; apply Z.leb_le; lia).
    replace (py <? CHUNK_SIZE) with true by (symmetry; apply Z.ltb_lt; lia).
    cbn. unfold CHUNK_SIZE in *. rewrite !u8_wrap_small by lia. reflexivity.
Qed.

(** X6. [ChunkPos::iter_positions] yields [CHUNK_SIZE * CHUNK_SIZE] positions,
    without repetition, in row-major order (the [i]-th has index [i]), and a
    position occurs in it exactly when it is in range. *)
Theorem chunk_pos_iter_positions_enumerates :
  length ChunkPos.iter_positions = Z.to_nat (CHUNK_SIZE * CHUNK_SIZE) /\
  NoDup ChunkPos.iter_positions /\
  (forall (i : nat) (p : ChunkPos), ChunkPos.iter_positions !! i = Some p ->
     ChunkPos.as_index p = Z.of_nat i) /\
  (forall p : ChunkPos, p ∈ ChunkPos.iter_positions <-> ChunkPos.valid p).
Proof.
  split; [vm_compute; reflexivity|]. split; [|split].
  - apply (NoDup_fmap_1 ChunkPos.as_index). rewrite iter_positions_indices.
    apply NoDup_fmap_2; [intros i j Hij; lia|]. apply NoDup_seq.
  - exact iter_positions_lookup.
  - intros p. split.
    + apply iter_positions_valid.
    + intros Hp. eapply list_elem_of_lookup_2. apply iter_positions_lookup_valid. exact Hp.
Qed.

(** ** Chunks *)

Section ChunkFacts.
Context {T Carry Entity : Type}.
Implicit Types (c : Chunk T Carry Entity).

(** The occupied slots listed by [iter_tile_positions] are exactly the in-range
    positions whose slot holds a tile. *)
Lemma iter_tile_positions_elem c (p : ChunkPos) (tile : T) :
  Chunk.wf c ->
  (p, tile) ∈ Chunk.iter_tile_positions c <->
  ChunkPos.valid p /\ Chunk.index c p = Some (Some tile).
Proof.
  intros Hwf. unfold Chunk.iter_tile_positions, Chunk.iter_positions, Chunk.index.
  rewrite list_elem_of_omap. split.
  - intros [[q s] [Hin Hf]]. destruct s as [t'|]; cbn in Hf; [|discriminate].
    injection Hf as <- <-.
    apply list_elem_of_lookup_1 in Hin as [i Hi].
    unfold zip in Hi. apply lookup_zip_with_Some in Hi as (q' & s' & [= <- <-] & Hq & Hs).
    assert (Hv : ChunkPos.valid q) by (apply iter_positions_valid; eapply list_elem_of_lookup_2; exact Hq).
    split; [exact Hv|].
    rewrite (iter_positions_lookup i q Hq), Nat2Z.id. exact Hs.
  - intros [Hv Hs]. exists (p, Some tile). split; [|reflexivity].
    eapply list_elem_of_lookup_2. unfold zip. apply lookup_zip_with_Some.
    exists p, (Some tile). split; [reflexivity|]. split; [|exact Hs].
    apply iter_positions_lookup_valid. exact Hv.
Qed.

End ChunkFacts.

(** X7. [Chunk::default()] has [CHUNK_SIZE * CHUNK_SIZE] slots, all empty
    ([is_set] is false everywhere, no occupied slot is listed), is not marked for
    mesh regeneration, has the default carry data and no mesh entity. *)
Theorem chunk_default_empty {T Carry Entity : Type} (carry_default : Carry) :
  let c := Chunk.default (T:=T) (Entity:=Entity) carry_default in
  Chunk.wf c /\
  Chunk.regenerate_mesh c = false /\
  Chunk.mesh_carry_data c = carry_default /\
  Chunk.mesh_entity c = None /\
  Chunk.iter_tile_positions c = [] /\
  (forall p : ChunkPos, ChunkPos.valid p ->
     Chunk.index c p = Some None /\ Chunk.is_set c p = Some false).
Proof.
  cbv zeta. split; [apply default_wf|].
  split; [reflexivity|]. split; [reflexivity|]. split; [reflexivity|]. split.
  - destruct (Chunk.iter_tile_positions (Chunk.default (T:=T) (Entity:=Entity) carry_default))
      as [|[p t] l] eqn:E; [reflexivity|].
    exfalso. assert (Hin : (p, t) ∈ Chunk.iter_tile_positions
                              (Chunk.default (T:=T) (Entity:=Entity) carry_default))
      by (rewrite E; left).
    apply iter_tile_positions_elem in Hin as [Hv Hidx]; [|apply default_wf].
    rewrite default_index in Hidx by exact Hv. discriminate.
  - intros p Hp. unfold Chunk.is_set. rewrite default_index by exact Hp.
    split; reflexivity.
Qed.

(** X8. For a chunk of [CHUNK_SIZE * CHUNK_SIZE] slots, [iter_tile_positions]
    (the order behind the mesh pass and [Tilemap::iter_positions]) lists a
    position and tile exactly when the position is in range and its slot holds
    that tile; it lists no position twice. *)
Theorem chunk_iter_tile_positions_occupied {T Carry Entity : Type}
    (c : Chunk T Carry Entity) :
  Chunk.wf c ->
  (forall (p : ChunkPos) (tile : T),
     (p, tile) ∈ Chunk.iter_tile_positions c <->
     ChunkPos.valid p /\ Chunk.index c p = Some (Some tile)) /\
  NoDup (fst <$> Chunk.iter_tile_positions c).
Proof.
  intros Hwf. split.
  - intros p tile. apply iter_tile_positions_elem. exact Hwf.
  - unfold Chunk.iter_tile_positions, Chunk.iter_positions.
    assert (Hnd : NoDup (fst <$> zip ChunkPos.iter_positions (Chunk.tiles c))).
    { assert (Hpre : fst <$> zip ChunkPos.iter_positions (Chunk.tiles c)
                     = take (length (Chunk.tiles c)) ChunkPos.iter_positions).
      { clear Hwf. generalize ChunkPos.iter_positions. generalize (Chunk.tiles c).
        induction l as [|s l IH]; intros [|q ps]; cbn; try reflexivity.
        f_equal. apply IH. }
      rewrite Hpre.
      assert (Hall : NoDup ChunkPos.iter_positions).
      { apply (NoDup_fmap_1 ChunkPos.as_index). rewrite iter_positions_indices.
        apply NoDup_fmap_2; [intros i j Hij; lia|]. apply NoDup_seq. }
      rewrite <- (take_drop (length (Chunk.tiles c)) ChunkPos.iter_positions) in Hall.
      apply NoDup_app in Hall as [Hall _]. exact Hall. }
    revert Hnd. generalize (zip ChunkPos.iter_positions (Chunk.tiles c)).
    induction l as [|[q [t'|]] l IH]; cbn; intros Hnd.
    + constructor.
    + inversion Hnd as [|? ? Hnot Hnd']; subst. constructor; [|apply IH; exact Hnd'].
      intros Hin. apply Hnot. apply list_elem_of_fmap in Hin as [[q' t''] [Heq Hin]].
      cbn in Heq. subst q'. apply list_elem_of_fmap.
      apply list_elem_of_omap in Hin as [[q0 s0] [Hin0 Hf]].
      destruct s0 as [t0|]; cbn in Hf; [|discriminate]. injection Hf as <- <-.
      exists (q0, Some t0). split; [reflexivity|exact Hin0].
    + inversion Hnd as [|? ? Hnot Hnd']; subst. apply IH. exact Hnd'.
Qed.

Lemma chunk_iter_tile_positions_occupied_witness :
  (ChunkPos.ChunkPos 3 4, 9%nat)
    ∈ Chunk.iter_tile_positions
        (Chunk.Chunk (Carry:=nat) (Entity:=nat)
           (<[Z.to_nat (3 + 4 * CHUNK_SIZE) := Some 9%nat]>
              (replicate (Z.to_nat (CHUNK_SIZE * CHUNK_SIZE)) None)) true 0%nat None).
Proof.
  apply (chunk_iter_tile_positions_occupied
           (Chunk.Chunk (Carry:=nat) (Entity:=nat)
              (<[Z.to_nat (3 + 4 * CHUNK_SIZE) := Some 9%nat]>
                 (replicate (Z.to_nat (CHUNK_SIZE * CHUNK_SIZE)) None)) true 0%nat None)).
  - reflexivity.
  - split; [unfold ChunkPos.valid, CHUNK_SIZE; cbn; lia | reflexivity].
Defined.

(** ** The tile map *)

Section TilemapFacts.
Context {T Carry Entity : Type}.
Context (carry_default : Carry).
Implicit Types (m : gmap IVec2 (Chunk T Carry Entity)) (pos : TilemapPos).

Lemma index_set_regenerate_mesh (c : Chunk T Carry Entity) (p : ChunkPos) :
  Chunk.index (Chunk.set_regenerate_mesh c) p = Chunk.index c p.
Proof. reflexivity. Qed.

(** [Tilemap::set] writes the chunk found or created by [get_or_create_chunk]
    back under its key. *)
Lemma tilemap_set_unfold m pos (tile : T) :
  Tilemap.set carry_default m pos tile =
  (fun r => (<[TilemapPos.chunk pos := r.1]> m, r.2)) <$>
    Chunk.set (default (Chunk.default carry_default) (m !! TilemapPos.chunk pos))
      (TilemapPos.tile pos) tile.
Proof.
  unfold Tilemap.set, Tilemap.get_or_create_chunk.
  destruct (m !! TilemapPos.chunk pos) as [c|]; cbn [default];
    destruct (Chunk.set _ (TilemapPos.tile pos) tile) as [[c' o]|]; cbn; try reflexivity.
  rewrite insert_insert_eq. reflexivity.
Qed.

(** On an in-range tile, [get] reads the slot of the stored chunk, an absent
    chunk reading as the default (empty) one. *)
Lemma tilemap_get_default m pos :
  ChunkPos.valid (TilemapPos.tile pos) ->
  Tilemap.get m pos
    = Chunk.index (default (Chunk.default carry_default) (m !! TilemapPos.chunk pos))
        (TilemapPos.tile pos).
Proof.
  intros Hv. unfold Tilemap.get, Tilemap.get_chunk.
  destruct (m !! TilemapPos.chunk pos); cbn [default]; [reflexivity|].
  symmetry. apply default_index. exact Hv.
Qed.

Lemma tilemap_get_insert m (k : IVec2) (c : Chunk T Carry Entity) (q : TilemapPos) :
  Tilemap.get (<[k := c]> m) q
    = if decide (TilemapPos.chunk q = k) then Chunk.index c (TilemapPos.tile q)
      else Tilemap.get m q.
Proof.
  unfold Tilemap.get, Tilemap.get_chunk.
  destruct (decide (TilemapPos.chunk q = k)) as [<-|Hne].
  - rewrite lookup_insert_eq. reflexivity.
  - rewrite lookup_insert_ne by congruence. reflexivity.
Qed.

Lemma tilemap_pos_neq_tile (p q : TilemapPos) :
  q <> p -> TilemapPos.chunk q = TilemapPos.chunk p -> TilemapPos.tile q <> TilemapPos.tile p.
Proof.
  destruct p as [pc pt], q as [qc qt]; cbn. intros Hne -> ->. apply Hne. reflexivity.
Qed.

Lemma all_wf_default m (k : IVec2) :
  map_Forall (fun _ c => Chunk.wf c) m -> Chunk.wf (default (Chunk.default carry_default) (m !! k)).
Proof.
  intros Hwf. destruct (m !! k) as [c|] eqn:Hk; cbn [default].
  - exact (map_Forall_lookup_1 _ _ _ _ Hwf Hk).
  - apply default_wf.
Qed.

End TilemapFacts.

(** Writing a tile through the map, on an in-range tile. *)
Lemma tilemap_set_spec {T Carry Entity : Type} (carry_default : Carry)
    (m : gmap IVec2 (Chunk T Carry Entity)) (pos : TilemapPos) (tile : T) :
  map_Forall (fun _ c => Chunk.wf c) m -> ChunkPos.valid (TilemapPos.tile pos) ->
  exists m' old,
    Tilemap.set carry_default m pos tile = Some (m', old) /\
    Tilemap.get m pos = Some old /\
    Tilemap.get m' pos = Some (Some tile) /\
    map_Forall (fun _ c => Chunk.wf c) m' /\
    (forall q, ChunkPos.valid (TilemapPos.tile q) -> q <> pos ->
       Tilemap.get m' q = Tilemap.get m q).
Proof.
  intros Hwf Hv.
  set (c0 := default (Chunk.default carry_default) (m !! TilemapPos.chunk pos)).
  assert (Hc0 : Chunk.wf (Chunk.set_regenerate_mesh c0))
    by exact (all_wf_default carry_default m _ Hwf).
  destruct (replace_slot_frame (Chunk.set_regenerate_mesh c0) (TilemapPos.tile pos)
              (Some tile) Hc0 Hv) as (old & Hidx & Hrep & Hnew & Hwf2 & Hother).
  rewrite index_set_regenerate_mesh in Hidx.
  rewrite tilemap_set_unfold. fold c0. unfold Chunk.set. rewrite Hrep. cbn [fmap option_fmap option_map fst snd].
  do 2 eexists. split; [reflexivity|].
  split; [rewrite (tilemap_get_default carry_default) by exact Hv; exact Hidx|].
  split; [rewrite tilemap_get_insert, decide_True by reflexivity; exact Hnew|].
  split; [apply map_Forall_insert_2; [exact Hwf2 | exact Hwf]|].
  intros q Hq Hne. rewrite tilemap_get_insert.
  destruct (decide (TilemapPos.chunk q = TilemapPos.chunk pos)) as [Heq|Hne'];
    [|reflexivity].
  rewrite Hother by (exact Hq || exact (tilemap_pos_neq_tile pos q Hne Heq)).
  rewrite index_set_regenerate_mesh, (tilemap_get_default carry_default) by exact Hq.
  rewrite Heq. reflexivity.
Qed.

(** Removing a tile through the map, on an in-range tile. *)
Lemma tilemap_remove_spec {T Carry Entity : Type}
    (m : gmap IVec2 (Chunk T Carry Entity)) (pos : TilemapPos) :
  map_Forall (fun _ c => Chunk.wf c) m -> ChunkPos.valid (TilemapPos.tile pos) ->
  exists m' old,
    Tilemap.remove m pos = Some (m', old) /\
    Tilemap.get m pos = Some old /\
    Tilemap.get m' pos = Some None /\
    dom m' = dom m /\
    map_Forall (fun _ c => Chunk.wf c) m' /\
    (forall q, ChunkPos.valid (TilemapPos.tile q) -> q <> pos ->
       Tilemap.get m' q = Tilemap.get m q).
Proof.
  intros Hwf Hv. unfold Tilemap.remove.
  destruct (Tilemap.get_chunk m (TilemapPos.chunk pos)) as [c|] eqn:Hm.
  - unfold Tilemap.get_chunk in Hm.
    assert (Hc : Chunk.wf (Chunk.set_regenerate_mesh c))
      by exact (map_Forall_lookup_1 _ _ _ _ Hwf Hm).
    destruct (replace_slot_frame (Chunk.set_regenerate_mesh c) (TilemapPos.tile pos)
                None Hc Hv) as (old & Hidx & Hrep & Hnew & Hwf2 & Hother).
    rewrite index_set_regenerate_mesh in Hidx.
    unfold Chunk.remove. rewrite Hrep.
    do 2 eexists. split; [reflexivity|].
    split; [unfold Tilemap.get, Tilemap.get_chunk; rewrite Hm; exact Hidx|].
    split; [rewrite tilemap_get_insert, decide_True by reflexivity; exact Hnew|].
    split; [rewrite dom_insert_L; apply elem_of_dom_2 in Hm; set_solver|].
    split; [apply map_Forall_insert_2; [exact Hwf2 | exact Hwf]|].
    intros q Hq Hne. rewrite tilemap_get_insert.
    destruct (decide (TilemapPos.chunk q = TilemapPos.chunk pos)) as [Heq|Hne'];
      [|reflexivity].
    rewrite Hother by (exact Hq || exact (tilemap_pos_neq_tile pos q Hne Heq)).
    rewrite index_set_regenerate_mesh. unfold Tilemap.get, Tilemap.get_chunk.
    rewrite Heq, Hm. reflexivity.
  - exists m, None. split; [reflexivity|].
    unfold Tilemap.get. rewrite Hm. repeat split; auto.
Qed.

(** X9. On a map whose chunks all have their [CHUNK_SIZE * CHUNK_SIZE] slots and
    an in-range tile, [Tilemap::set] does not panic: it returns what [get]
    reported before, afterwards [get] reads the new tile there, every chunk still
    has its full array, and every other in-range position reads as before. *)
Theorem tilemap_set_get {T Carry Entity : Type} (carry_default : Carry)
    (m : gmap IVec2 (Chunk T Carry Entity)) (pos : TilemapPos) (tile : T) :
  map_Forall (fun _ c => Chunk.wf c) m -> ChunkPos.valid (TilemapPos.tile pos) ->
  exists m' old,
    Tilemap.set carry_default m pos tile = Some (m', old) /\
    Tilemap.get m pos = Some old /\
    Tilemap.get m' pos = Some (Some tile) /\
    map_Forall (fun _ c => Chunk.wf c) m' /\
    (forall q, ChunkPos.valid (TilemapPos.tile q) -> q <> pos ->
       Tilemap.get m' q = Tilemap.get m q).
Proof.
  intros Hwf Hv. exact (tilemap_set_spec carry_default m pos tile Hwf Hv).
Qed.

Lemma tilemap_set_get_witness :
  exists m' old,
    Tilemap.set (T:=nat) (Entity:=nat) 0%nat ∅
      (TilemapPos.TilemapPos (-1, 2) (ChunkPos.ChunkPos 31 0)) 4%nat = Some (m', old) /\
    Tilemap.get (T:=nat) (Carry:=nat) (Entity:=nat) ∅
      (TilemapPos.TilemapPos (-1, 2) (ChunkPos.ChunkPos 31 0)) = Some old /\
    Tilemap.get m' (TilemapPos.TilemapPos (-1, 2) (ChunkPos.ChunkPos 31 0)) = Some (Some 4%nat).
Proof.
  destruct (tilemap_set_get (T:=nat) (Entity:=nat) 0%nat ∅
              (TilemapPos.TilemapPos (-1, 2) (ChunkPos.ChunkPos 31 0)) 4%nat)
    as (m' & old & Hs & Hg & Hg' & _ & _).
  - apply map_Forall_empty.
  - unfold ChunkPos.valid, CHUNK_SIZE; cbn; lia.
  - exists m', old. split; [exact Hs|]. split; [exact Hg | exact Hg'].
Defined.

(** X10. On a map whose chunks all have their full array and an in-range tile,
    [Tilemap::remove] does not panic: it returns what [get] reported before,
    afterwards [get] reads an empty slot there, no chunk is added or dropped
    (an emptied chunk stays in the map), every chunk keeps its full array, and
    every other in-range position reads as before. *)
Theorem tilemap_remove_get {T Carry Entity : Type}
    (m : gmap IVec2 (Chunk T Carry Entity)) (pos : TilemapPos) :
  map_Forall (fun _ c => Chunk.wf c) m -> ChunkPos.valid (TilemapPos.tile pos) ->
  exists m' old,
    Tilemap.remove m pos = Some (m', old) /\
    Tilemap.get m pos = Some old /\
    Tilemap.get m' pos = Some None /\
    dom m' = dom m /\
    map_Forall (fun _ c => Chunk.wf c) m' /\
    (forall q, ChunkPos.valid (TilemapPos.tile q) -> q <> pos ->
       Tilemap.get m' q = Tilemap.get m q).
Proof.
  intros Hwf Hv. exact (tilemap_remove_spec m pos Hwf Hv).
Qed.

Lemma tilemap_remove_get_witness :
  exists m' old,
    Tilemap.remove (T:=nat) (Carry:=nat) (Entity:=nat)
      {[(0, 0) := Chunk.default 0%nat]} (TilemapPos.TilemapPos (0, 0) (ChunkPos.ChunkPos 1 2))
      = Some (m', old) /\
    dom m' = {[(0, 0)]}.
Proof.
  destruct (tilemap_remove_get (T:=nat) (Carry:=nat) (Entity:=nat)
              {[(0, 0) := Chunk.default 0%nat]}
              (TilemapPos.TilemapPos (0, 0) (ChunkPos.ChunkPos 1 2)))
    as (m' & old & Hr & _ & _ & Hd & _ & _).
  - apply map_Forall_singleton. apply default_wf.
  - unfold ChunkPos.valid, CHUNK_SIZE; cbn; lia.
  - exists m', old. split; [exact Hr|]. rewrite Hd. apply dom_singleton_L.
Defined.

(** X11. On a map whose chunks all have their full array, [Tilemap::iter_positions]
    lists a position and tile exactly when the position's tile is in range and
    [get] reads that tile there: every stored tile, under its own chunk
    coordinate, and nothing else. *)
Theorem tilemap_iter_positions_elem {T Carry Entity : Type}
    (m : gmap IVec2 (Chunk T Carry Entity)) :
  map_Forall (fun _ c => Chunk.wf c) m ->
  forall (p : TilemapPos) (tile : T),
    (p, tile) ∈ Tilemap.iter_positions m <->
    ChunkPos.valid (TilemapPos.tile p) /\ Tilemap.get m p = Some (Some tile).
Proof.
  intros Hwf p tile. unfold Tilemap.iter_positions. rewrite list_elem_of_bind. split.
  - intros [[k c] [Hin Hkc]]. apply elem_of_map_to_list in Hkc.
    apply list_elem_of_fmap in Hin as [[tp t'] [Heq Hin]]. injection Heq as -> ->.
    apply iter_tile_positions_elem in Hin as [Hv Hidx];
      [|exact (map_Forall_lookup_1 _ _ _ _ Hwf Hkc)].
    split; [exact Hv|]. unfold Tilemap.get, Tilemap.get_chunk. cbn. rewrite Hkc. exact Hidx.
  - destruct p as [k tp]. cbn. intros [Hv Hg].
    unfold Tilemap.get, Tilemap.get_chunk in Hg. cbn in Hg.
    destruct (m !! k) as [c|] eqn:Hkc; [|discriminate].
    exists (k, c). split; [|apply elem_of_map_to_list; exact Hkc].
    apply list_elem_of_fmap. exists (tp, tile). split; [reflexivity|].
    apply iter_tile_positions_elem; [exact (map_Forall_lookup_1 _ _ _ _ Hwf Hkc)|].
    split; assumption.
Qed.

Lemma tilemap_iter_positions_elem_witness :
  (TilemapPos.TilemapPos (5, -3) (ChunkPos.ChunkPos 3 4), 9%nat)
    ∈ Tilemap.iter_positions
        {[(5, -3) := Chunk.Chunk (Carry:=nat) (Entity:=nat)
           (<[Z.to_nat (3 + 4 * CHUNK_SIZE) := Some 9%nat]>
              (replicate (Z.to_nat (CHUNK_SIZE * CHUNK_SIZE)) None)) true 0%nat None]}.
Proof.
  apply (tilemap_iter_positions_elem
           {[(5, -3) := Chunk.Chunk (Carry:=nat) (Entity:=nat)
              (<[Z.to_nat (3 + 4 * CHUNK_SIZE) := Some 9%nat]>
                 (replicate (Z.to_nat (CHUNK_SIZE * CHUNK_SIZE)) None)) true 0%nat None]}).
  - apply map_Forall_singleton. reflexivity.
  - split; [unfold ChunkPos.valid, CHUNK_SIZE; cbn; lia | reflexivity].
Defined.

(** ** [TilemapPos] arithmetic *)

(** Splits an equation between positions or pairs into its integer components. *)
Ltac pos_components :=
  repeat match goal with
         | |- TilemapPos.TilemapPos _ _ = TilemapPos.TilemapPos _ _ => f_equal
         | |- ChunkPos.ChunkPos _ _ = ChunkPos.ChunkPos _ _ => f_equal
         | |- (_, _) = (_, _) => f_equal
         end.

(** Decides every [<?] test of the goal. *)
Ltac case_ltb :=
  repeat match goal with
         | |- context [?a <? ?b] => destruct (Z.ltb_spec a b)
         end.

Ltac chunk_arith := unfold CHUNK_SIZE in *; Z.div_mod_to_equations; lia.

(** X12. On in-range tiles, [TilemapPos - TilemapPos] and [TilemapPos - ChunkPos]
    are exact: the absolute coordinate of the result is the difference of the
    absolute coordinates, and the result's tile is in range (the borrow is
    applied to the chunk coordinate exactly when a local coordinate underflows). *)
Theorem tilemap_pos_sub_to_ivec2 (p q : TilemapPos) (d : ChunkPos) :
  ChunkPos.valid (TilemapPos.tile p) -> ChunkPos.valid (TilemapPos.tile q) ->
  ChunkPos.valid d ->
  TilemapPos.to_ivec2 (TilemapPos.sub p q)
    = ivec2_sub (TilemapPos.to_ivec2 p) (TilemapPos.to_ivec2 q) /\
  ChunkPos.valid (TilemapPos.tile (TilemapPos.sub p q)) /\
  TilemapPos.to_ivec2 (TilemapPos.sub_chunk_pos p d)
    = ivec2_sub (TilemapPos.to_ivec2 p) (ChunkPos.as_ivec2 d) /\
  ChunkPos.valid (TilemapPos.tile (TilemapPos.sub_chunk_pos p d)).
Proof.
  intros Hp Hq Hd.
  unfold TilemapPos.sub, TilemapPos.sub_chunk_pos.
  rewrite (overflowing_sub_valid _ _ Hp Hq), (overflowing_sub_valid _ _ Hp Hd).
  destruct p as [[pcx pcy] [px py]], q as [[qcx qcy] [qx qy]], d as [dx dy].
  unfold ChunkPos.valid in *. cbn [TilemapPos.tile ChunkPos.f0 ChunkPos.f1] in *.
  unfold TilemapPos.to_ivec2, TilemapPos.apply_borrow, ivec2_sub, ivec2_add,
    ChunkPos.as_ivec2, ChunkPos.x, ChunkPos.y.
  cbn [TilemapPos.tile TilemapPos.chunk ChunkPos.f0 ChunkPos.f1 fst snd bx by_].
  case_ltb; cbn [fst snd]; repeat split; pos_components; chunk_arith.
Qed.

Lemma tilemap_pos_sub_to_ivec2_witness :
  TilemapPos.to_ivec2
    (TilemapPos.sub (TilemapPos.TilemapPos (0, 0) (ChunkPos.ChunkPos 1 5))
                    (TilemapPos.TilemapPos (2, -1) (ChunkPos.ChunkPos 3 30)))
  = ivec2_sub (TilemapPos.to_ivec2 (TilemapPos.TilemapPos (0, 0) (ChunkPos.ChunkPos 1 5)))
              (TilemapPos.to_ivec2 (TilemapPos.TilemapPos (2, -1) (ChunkPos.ChunkPos 3 30))).
Proof.
  apply (tilemap_pos_sub_to_ivec2 (TilemapPos.TilemapPos (0, 0) (ChunkPos.ChunkPos 1 5))
           (TilemapPos.TilemapPos (2, -1) (ChunkPos.ChunkPos 3 30)) ChunkPos.ZERO);
    unfold ChunkPos.valid, CHUNK_SIZE; cbn; lia.
Defined.

(** X13. On in-range tiles, [TilemapPos + TilemapPos] and [TilemapPos + ChunkPos]
    are exact (absolute coordinate of the result = sum of the absolute
    coordinates, tile in range) whenever no local coordinate sum is exactly
    [CHUNK_SIZE]; in particular the carry is applied for sums above it. *)
Theorem tilemap_pos_add_to_ivec2 (p q : TilemapPos) (d : ChunkPos) :
  ChunkPos.valid (TilemapPos.tile p) -> ChunkPos.valid (TilemapPos.tile q) ->
  ChunkPos.valid d ->
  ChunkPos.x (TilemapPos.tile p) + ChunkPos.x (TilemapPos.tile q) <> CHUNK_SIZE ->
  ChunkPos.y (TilemapPos.tile p) + ChunkPos.y (TilemapPos.tile q) <> CHUNK_SIZE ->
  ChunkPos.x (TilemapPos.tile p) + ChunkPos.x d <> CHUNK_SIZE ->
  ChunkPos.y (TilemapPos.tile p) + ChunkPos.y d <> CHUNK_SIZE ->
  TilemapPos.to_ivec2 (TilemapPos.add p q)
    = ivec2_add (TilemapPos.to_ivec2 p) (TilemapPos.to_ivec2 q) /\
  ChunkPos.valid (TilemapPos.tile (TilemapPos.add p q)) /\
  TilemapPos.to_ivec2 (TilemapPos.add_chunk_pos p d)
    = ivec2_add (TilemapPos.to_ivec2 p) (ChunkPos.as_ivec2 d) /\
  ChunkPos.valid (TilemapPos.tile (TilemapPos.add_chunk_pos p d)).
Proof.
  intros Hp Hq Hd H1 H2 H3 H4.
  unfold TilemapPos.add, TilemapPos.add_chunk_pos.
  rewrite (overflowing_add_valid _ _ Hp Hq), (overflowing_add_valid _ _ Hp Hd).
  destruct p as [[pcx pcy] [px py]], q as [[qcx qcy] [qx qy]], d as [dx dy].
  unfold ChunkPos.valid, ChunkPos.x, ChunkPos.y in *.
  cbn [TilemapPos.tile ChunkPos.f0 ChunkPos.f1] in *.
  unfold TilemapPos.to_ivec2, TilemapPos.apply_carry, ivec2_sub, ivec2_add,
    ChunkPos.as_ivec2.
  cbn [TilemapPos.tile TilemapPos.chunk ChunkPos.f0 ChunkPos.f1 fst snd bx by_].
  case_ltb; cbn [fst snd]; repeat split; pos_components; chunk_arith.
Qed.

Lemma tilemap_pos_add_to_ivec2_witness :
  TilemapPos.to_ivec2
    (TilemapPos.add (TilemapPos.TilemapPos (0, 0) (ChunkPos.ChunkPos 31 0))
                    (TilemapPos.TilemapPos (1, 1) (ChunkPos.ChunkPos 2 0)))
  = (65, 32).
Proof.
  apply (tilemap_pos_add_to_ivec2 (TilemapPos.TilemapPos (0, 0) (ChunkPos.ChunkPos 31 0))
           (TilemapPos.TilemapPos (1, 1) (ChunkPos.ChunkPos 2 0)) (ChunkPos.ChunkPos 2 0));
    unfold ChunkPos.valid, ChunkPos.x, ChunkPos.y, CHUNK_SIZE; cbn; lia.
Defined.

(** X14. The compound assignments ([+=], [-=] with a [TilemapPos], a [ChunkPos]
    or an [IVec2]) compute the same position as the matching binary operator,
    for all operands, and [TilemapPos +/- ChunkPos] is [TilemapPos +/- TilemapPos]
    with the [ChunkPos] placed in chunk [(0, 0)]. *)
Theorem tilemap_pos_assign_ops (p q : TilemapPos) (d : ChunkPos) (v : IVec2) :
  TilemapPos.add_assign p q = TilemapPos.add p q /\
  TilemapPos.sub_assign p q = TilemapPos.sub p q /\
  TilemapPos.add_assign_chunk_pos p d = TilemapPos.add_chunk_pos p d /\
  TilemapPos.sub_assign_chunk_pos p d = TilemapPos.sub_chunk_pos p d /\
  TilemapPos.add_assign_ivec2 p v = TilemapPos.add_ivec2 p v /\
  TilemapPos.sub_assign_ivec2 p v = TilemapPos.sub_ivec2 p v /\
  TilemapPos.add_chunk_pos p d = TilemapPos.add p (TilemapPos.TilemapPos (0, 0) d) /\
  TilemapPos.sub_chunk_pos p d = TilemapPos.sub p (TilemapPos.TilemapPos (0, 0) d).
Proof.
  destruct p as [[cx cy] tp].
  unfold TilemapPos.add_assign, TilemapPos.sub_assign, TilemapPos.add_assign_chunk_pos,
    TilemapPos.sub_assign_chunk_pos, TilemapPos.add_assign_ivec2, TilemapPos.sub_assign_ivec2,
    TilemapPos.add_ivec2, TilemapPos.sub_ivec2, TilemapPos.add, TilemapPos.sub,
    TilemapPos.add_chunk_pos, TilemapPos.sub_chunk_pos, TilemapPos.apply_carry,
    TilemapPos.apply_borrow, ivec2_add, ivec2_sub.
  cbn [TilemapPos.tile TilemapPos.chunk fst snd].
  rewrite !Z.add_0_r, !Z.sub_0_r.
  repeat split;
    repeat match goal with
           | |- context [ChunkPos.overflowing_add ?a ?b] =>
               destruct (ChunkPos.overflowing_add a b) as [t' [[|] [|]]]
           | |- context [ChunkPos.overflowing_sub ?a ?b] =>
               destruct (ChunkPos.overflowing_sub a b) as [t' [[|] [|]]]
           end; reflexivity.
Qed.

(** X15. [From<IVec2> for TilemapPos] never panics: the tile is the pair of
    components modulo [CHUNK_SIZE] (in range), the chunk the quotients rounded
    toward zero. On non-negative coordinates it is inverse to
    [From<TilemapPos> for IVec2], in both directions. *)
Theorem tilemap_pos_from_ivec2_roundtrip :
  (forall v : IVec2, exists p,
     TilemapPos.from_ivec2 v = Some p /\
     ChunkPos.valid (TilemapPos.tile p) /\
     TilemapPos.chunk p = (Z.quot v.1 CHUNK_SIZE, Z.quot v.2 CHUNK_SIZE) /\
     TilemapPos.tile p = ChunkPos.ChunkPos (v.1 mod CHUNK_SIZE) (v.2 mod CHUNK_SIZE)) /\
  (forall v : IVec2, 0 <= v.1 -> 0 <= v.2 ->
     exists p, TilemapPos.from_ivec2 v = Some p /\ TilemapPos.to_ivec2 p = v) /\
  (forall p : TilemapPos, ChunkPos.valid (TilemapPos.tile p) ->
     0 <= (TilemapPos.chunk p).1 -> 0 <= (TilemapPos.chunk p).2 ->
     TilemapPos.from_ivec2 (TilemapPos.to_ivec2 p) = Some p).
Proof.
  assert (Hfrom : forall v : IVec2,
            TilemapPos.from_ivec2 v
            = Some (TilemapPos.TilemapPos (Z.quot v.1 CHUNK_SIZE, Z.quot v.2 CHUNK_SIZE)
                      (ChunkPos.ChunkPos (v.1 mod CHUNK_SIZE) (v.2 mod CHUNK_SIZE)))).
  { intros v. unfold TilemapPos.from_ivec2. rewrite !mask_u8_wrap.
    unfold ChunkPos.new, ChunkPos.try_new.
    replace (v.1 mod CHUNK_SIZE <? CHUNK_SIZE) with true
      by (symmetry; apply Z.ltb_lt; chunk_arith).
    replace (v.2 mod CHUNK_SIZE <? CHUNK_SIZE) with true
      by (symmetry; apply Z.ltb_lt; chunk_arith).
    reflexivity. }
  split; [|split].
  - intros v. rewrite Hfrom. eexists. split; [reflexivity|].
    unfold ChunkPos.valid; cbn [TilemapPos.tile TilemapPos.chunk ChunkPos.f0 ChunkPos.f1].
    split; [split; chunk_arith|]. split; reflexivity.
  - intros [vx vy] Hx Hy. cbn in Hx, Hy. rewrite Hfrom. eexists. split; [reflexivity|].
    unfold TilemapPos.to_ivec2, ivec2_add, ChunkPos.as_ivec2.
    cbn [TilemapPos.tile TilemapPos.chunk ChunkPos.f0 ChunkPos.f1 fst snd].
    rewrite !Z.quot_div_nonneg by (unfold CHUNK_SIZE; lia).
    pos_components; chunk_arith.
  - intros [[cx cy] [px py]]. unfold ChunkPos.valid.
    cbn [TilemapPos.tile TilemapPos.chunk ChunkPos.f0 ChunkPos.f1 fst snd].
    intros [Hx Hy] Hcx Hcy. rewrite Hfrom.
    unfold TilemapPos.to_ivec2, ivec2_add, ChunkPos.as_ivec2.
    cbn [TilemapPos.tile TilemapPos.chunk ChunkPos.f0 ChunkPos.f1 fst snd].
    rewrite !Z.quot_div_nonneg by (unfold CHUNK_SIZE in *; lia).
    f_equal. pos_components.
    + symmetry. apply Z.div_unique with px; unfold CHUNK_SIZE in *; lia.
    + symmetry. apply Z.div_unique with py; unfold CHUNK_SIZE in *; lia.
    + symmetry. apply Z.mod_unique with cx; unfold CHUNK_SIZE in *; lia.
    + symmetry. apply Z.mod_unique with cy; unfold CHUNK_SIZE in *; lia.
Qed.

(** X16. [TilemapPos::ZERO], [ChunkPos::ZERO] and the zero [IVec2] are right
    identities of the position operators on positions whose tile is in range. *)
Theorem tilemap_pos_zero_identity (p : TilemapPos) :
  ChunkPos.valid (TilemapPos.tile p) ->
  TilemapPos.add p TilemapPos.ZERO = p /\
  TilemapPos.sub p TilemapPos.ZERO = p /\
  TilemapPos.add_chunk_pos p ChunkPos.ZERO = p /\
  TilemapPos.sub_chunk_pos p ChunkPos.ZERO = p /\
  TilemapPos.add_ivec2 p (0, 0) = p /\
  TilemapPos.sub_ivec2 p (0, 0) = p.
Proof.
  intros Hp.
  assert (Hz : ChunkPos.valid ChunkPos.ZERO) by (unfold ChunkPos.valid, CHUNK_SIZE; cbn; lia).
  unfold TilemapPos.add, TilemapPos.sub, TilemapPos.add_chunk_pos, TilemapPos.sub_chunk_pos,
    TilemapPos.add_ivec2, TilemapPos.sub_ivec2, TilemapPos.ZERO.
  cbn [TilemapPos.tile TilemapPos.chunk].
  rewrite (overflowing_add_valid _ _ Hp Hz), (overflowing_sub_valid _ _ Hp Hz).
  destruct p as [[cx cy] [px py]].
  unfold ChunkPos.valid, ChunkPos.x, ChunkPos.y, ChunkPos.ZERO in *.
  cbn [TilemapPos.tile TilemapPos.chunk ChunkPos.f0 ChunkPos.f1] in *.
  unfold TilemapPos.apply_carry, TilemapPos.apply_borrow, ivec2_add, ivec2_sub.
  cbn [fst snd bx by_].
  case_ltb; try (exfalso; unfold CHUNK_SIZE in *; lia); cbn [fst snd];
    repeat split; pos_components; chunk_arith.
Qed.

Lemma tilemap_pos_zero_identity_witness :
  TilemapPos.add (TilemapPos.TilemapPos (-4, 7) (ChunkPos.ChunkPos 31 31)) TilemapPos.ZERO
    = TilemapPos.TilemapPos (-4, 7) (ChunkPos.ChunkPos 31 31).
Proof.
  apply (tilemap_pos_zero_identity (TilemapPos.TilemapPos (-4, 7) (ChunkPos.ChunkPos 31 31))).
  unfold ChunkPos.valid, CHUNK_SIZE; cbn; lia.
Defined.

(** ** Tile iteration *)


Section IterFacts.
Context {T Carry Entity : Type}.
Implicit Types (c : Chunk T Carry Entity).



End IterFacts.



(** X18. [Tilemap::get_or_create_chunk] returns the chunk stored at the key,
    inserting [Chunk::default()] when there is none and otherwise leaving the map
    as it is; the key is then present, no other key is added, and [get] reads the
    same on every in-range position as before. *)
Theorem tilemap_get_or_create_chunk {T Carry Entity : Type} (carry_default : Carry)
    (m : gmap IVec2 (Chunk T Carry Entity)) (k : IVec2) :
  let r := Tilemap.get_or_create_chunk carry_default m k in
  r.1 !! k = Some r.2 /\
  dom r.1 = {[k]} ∪ dom m /\
  (forall c0, m !! k = Some c0 -> r = (m, c0)) /\
  (m !! k = None -> r.2 = Chunk.default carry_default) /\
  (forall q, ChunkPos.valid (TilemapPos.tile q) -> Tilemap.get r.1 q = Tilemap.get m q).
Proof.
  cbv zeta. unfold Tilemap.get_or_create_chunk.
  destruct (m !! k) as [c|] eqn:Hk; cbn [fst snd].
  - split; [exact Hk|]. split; [apply elem_of_dom_2 in Hk; set_solver|].
    split; [intros c0 [= ->]; reflexivity|]. split; [discriminate|].
    intros q _. reflexivity.
  - split; [apply lookup_insert_eq|]. split; [apply dom_insert_L|].
    split; [discriminate|]. split; [reflexivity|].
    intros q Hq. rewrite tilemap_get_insert.
    destruct (decide (TilemapPos.chunk q = k)) as [<-|Hne]; [|reflexivity].
    rewrite (default_index carry_default) by exact Hq.
    unfold Tilemap.get, Tilemap.get_chunk. rewrite Hk. reflexivity.
Qed.

(** ** The mesh pass, beyond the dirty flag *)

(** X19. [generate_meshes_system] adds and drops no chunk and never changes a
    chunk's tiles or dirty flag. Every chunk it rebuilds ends with a mesh entity:
    the one it had when that entity is still alive (its mesh handle is replaced),
    a newly spawned one otherwise. *)
Theorem generate_meshes_frame
    {T Carry Entity Builder Mesh : Type} (carry_default : Carry)
    (init : Carry -> Builder) (set_offset : Builder -> IVec2 -> Builder)
    (add_to_mesh : T -> Builder -> Builder) (finish : Builder -> Mesh * Carry)
    (mesh_alive : Entity -> bool) (spawn : IVec2 -> Mesh -> Entity)
    (m : gmap IVec2 (Chunk T Carry Entity)) :
  let m' := Lib.generate_meshes carry_default init set_offset add_to_mesh finish
              mesh_alive spawn m in
  dom m' = dom m /\
  (forall pos c, m !! pos = Some c ->
     exists c', m' !! pos = Some c' /\
       Chunk.tiles c' = Chunk.tiles c /\
       Chunk.regenerate_mesh c' = Chunk.regenerate_mesh c /\
       (Chunk.regenerate_mesh c = true ->
          exists e, Chunk.mesh_entity c' = Some e /\
            forall e0, Chunk.mesh_entity c = Some e0 -> mesh_alive e0 = true -> e = e0)).
Proof.
  cbv zeta. split.
  - apply dom_imap_L. intros i. rewrite elem_of_dom. split.
    + intros [c Hc]. exists c. split; [exact Hc | eexists; reflexivity].
    + intros (c & Hc & _). exists c. exact Hc.
  - intros pos c Hm. unfold Lib.generate_meshes. rewrite map_lookup_imap, Hm.
    cbn [mbind option_bind].
    destruct (Chunk.regenerate_mesh c) eqn:Hdirty; [|eexists; split; [reflexivity|];
      split; [reflexivity|]; split; [exact Hdirty|discriminate]].
    unfold Lib.rebuild_chunk.
    destruct (finish _) as [new_mesh carry_data].
    unfold Chunk.with_carry, Chunk.with_entity.
    cbn [Chunk.mesh_entity Chunk.mesh_carry_data Chunk.tiles Chunk.regenerate_mesh].
    destruct (Chunk.mesh_entity c) as [e|] eqn:He;
      [destruct (mesh_alive e) eqn:Ha|];
      (eexists; split; [reflexivity|]);
      cbn [Chunk.mesh_entity Chunk.tiles Chunk.regenerate_mesh];
      (split; [reflexivity|]); (split; [exact Hdirty|]); intros _;
      (eexists; split; [reflexivity|]); intros e0 [= <-] Hal; congruence.
Qed.

(** ** Composed operations on the map *)

(** On chunks with their full array, [get] at an in-range tile never panics. *)
Lemma tilemap_get_some {T Carry Entity : Type} (carry_default : Carry)
    (m : gmap IVec2 (Chunk T Carry Entity)) (pos : TilemapPos) :
  map_Forall (fun _ c => Chunk.wf c) m -> ChunkPos.valid (TilemapPos.tile pos) ->
  is_Some (Tilemap.get m pos).
Proof.
  intros Hwf Hv. rewrite (tilemap_get_default carry_default) by exact Hv.
  destruct (replace_slot_frame _ (TilemapPos.tile pos) None
              (all_wf_default carry_default m (TilemapPos.chunk pos) Hwf) Hv) as (old & Hidx & _).
  rewrite Hidx. eexists. reflexivity.
Qed.

(** X20. Setting a tile and then removing it at the same in-range position
    returns exactly that tile and leaves every position reading as before the
    [set], except that the position is now empty, but the chunk [set] had to
    create stays in the map: [remove] never frees a chunk. *)
Theorem tilemap_set_then_remove {T Carry Entity : Type} (carry_default : Carry)
    (m : gmap IVec2 (Chunk T Carry Entity)) (pos : TilemapPos) (tile : T) :
  map_Forall (fun _ c => Chunk.wf c) m -> ChunkPos.valid (TilemapPos.tile pos) ->
  exists m1 old m2,
    Tilemap.set carry_default m pos tile = Some (m1, old) /\
    Tilemap.remove m1 pos = Some (m2, Some tile) /\
    Tilemap.get m2 pos = Some None /\
    (forall q, ChunkPos.valid (TilemapPos.tile q) -> q <> pos ->
       Tilemap.get m2 q = Tilemap.get m q) /\
    dom m2 = {[TilemapPos.chunk pos]} ∪ dom m.
Proof.
  intros Hwf Hv.
  destruct (tilemap_set_spec carry_default m pos tile Hwf Hv)
    as (m1 & old & Hs & _ & Hg1 & Hwf1 & Hfr1).
  destruct (tilemap_remove_spec m1 pos Hwf1 Hv)
    as (m2 & old2 & Hr & Hg1' & Hg2 & Hd & _ & Hfr2).
  assert (old2 = Some tile) as -> by congruence.
  exists m1, old, m2. split; [exact Hs|]. split; [exact Hr|]. split; [exact Hg2|]. split.
  - intros q Hq Hne. rewrite Hfr2 by assumption. apply Hfr1; assumption.
  - rewrite Hd. exact (tilemap_set_dom carry_default m pos tile m1 old Hs).
Qed.

Lemma tilemap_set_then_remove_witness :
  exists m1 old m2,
    Tilemap.set (T:=nat) (Carry:=nat) (Entity:=nat) 0%nat ∅
      (TilemapPos.TilemapPos (7, 7) (ChunkPos.ChunkPos 0 31)) 3%nat = Some (m1, old) /\
    Tilemap.remove m1 (TilemapPos.TilemapPos (7, 7) (ChunkPos.ChunkPos 0 31))
      = Some (m2, Some 3%nat) /\
    dom m2 = {[(7, 7)]}.
Proof.
  destruct (tilemap_set_then_remove (T:=nat) (Carry:=nat) (Entity:=nat) 0%nat ∅
              (TilemapPos.TilemapPos (7, 7) (ChunkPos.ChunkPos 0 31)) 3%nat)
    as (m1 & old & m2 & Hs & Hr & _ & _ & Hd).
  - apply map_Forall_empty.
  - unfold ChunkPos.valid, CHUNK_SIZE; cbn; lia.
  - exists m1, old, m2. split; [exact Hs|]. split; [exact Hr|].
    rewrite Hd, dom_empty_L. set_solver.
Defined.

(** X21. A trace of tile-level operations whose positions all have in-range
    tiles never panics, from any map whose chunks have their full array, and
    every chunk keeps its full array. *)
Theorem tilemap_run_total {T Carry Entity : Type} (carry_default : Carry)
    (ops : list (Tilemap.op (T:=T))) (m : gmap IVec2 (Chunk T Carry Entity)) :
  map_Forall (fun _ c => Chunk.wf c) m ->
  Forall (fun o => match o with
                   | Tilemap.OpGet p | Tilemap.OpSet p _ | Tilemap.OpRemove p =>
                       ChunkPos.valid (TilemapPos.tile p)
                   | Tilemap.OpGetChunk _ => True
                   end) ops ->
  exists m', Tilemap.run carry_default m ops = Some m' /\
    map_Forall (fun _ c => Chunk.wf c) m'.
Proof.
  revert m. induction ops as [|o ops IH]; intros m Hwf Hops.
  - exists m. split; [reflexivity | exact Hwf].
  - apply Forall_cons in Hops as [Ho Hops]. cbn [Tilemap.run].
    assert (Hstep : exists m1, Tilemap.step carry_default m o = Some m1 /\
                      map_Forall (fun _ c => Chunk.wf c) m1).
    { destruct o as [pos|cpos|pos tile|pos]; cbn [Tilemap.step].
      - destruct (tilemap_get_some carry_default m pos Hwf Ho) as [r Hr].
        rewrite Hr. exists m. split; [reflexivity | exact Hwf].
      - exists m. split; [reflexivity | exact Hwf].
      - destruct (tilemap_set_spec carry_default m pos tile Hwf Ho)
          as (m1 & old & Hs & _ & _ & Hwf1 & _).
        rewrite Hs. exists m1. split; [reflexivity | exact Hwf1].
      - destruct (tilemap_remove_spec m pos Hwf Ho)
          as (m1 & old & Hr & _ & _ & _ & Hwf1 & _).
        rewrite Hr. exists m1. split; [reflexivity | exact Hwf1]. }
    destruct Hstep as (m1 & Hstep & Hwf1). rewrite Hstep. cbn [mbind option_bind].
    apply IH; assumption.
Qed.

Lemma tilemap_run_total_witness :
  exists m',
    Tilemap.run (T:=nat) (Carry:=nat) (Entity:=nat) 0%nat ∅
      [Tilemap.OpSet (TilemapPos.TilemapPos (1, -1) (ChunkPos.ChunkPos 2 3)) 8%nat;
       Tilemap.OpGet (TilemapPos.TilemapPos (1, -1) (ChunkPos.ChunkPos 2 3));
       Tilemap.OpGetChunk (4, 4);
       Tilemap.OpRemove (TilemapPos.TilemapPos (1, -1) (ChunkPos.ChunkPos 2 3))]
    = Some m'.
Proof.
  destruct (tilemap_run_total (T:=nat) (Carry:=nat) (Entity:=nat) 0%nat
      [Tilemap.OpSet (TilemapPos.TilemapPos (1, -1) (ChunkPos.ChunkPos 2 3)) 8%nat;
       Tilemap.OpGet (TilemapPos.TilemapPos (1, -1) (ChunkPos.ChunkPos 2 3));
       Tilemap.OpGetChunk (4, 4);
       Tilemap.OpRemove (TilemapPos.TilemapPos (1, -1) (ChunkPos.ChunkPos 2 3))] ∅)
    as (m' & Hrun & _).
  - apply map_Forall_empty.
  - repeat constructor; unfold ChunkPos.valid, CHUNK_SIZE; cbn; lia.
  - exists m'. exact Hrun.
Defined.



(** X23. The position part of [overflowing_add] / [overflowing_sub] is
    [wrapping_add] / [wrapping_sub], for all operands. *)
Theorem chunk_pos_overflowing_is_wrapping (a b : ChunkPos) :
  fst (ChunkPos.overflowing_add a b) = ChunkPos.wrapping_add a b /\
  fst (ChunkPos.overflowing_sub a b) = ChunkPos.wrapping_sub a b.
Proof.
  unfold ChunkPos.overflowing_add, ChunkPos.overflowing_sub, ChunkPos.overflowing_add_u8,
    ChunkPos.overflowing_sub_u8, u8_overflowing_sub, ChunkPos.wrapping_add,
    ChunkPos.wrapping_sub, u8_wrapping_sub.
  split; reflexivity.
Qed.


